(** * flowp: one-step flowpipe approximation of a linear hybrid automaton

    Shallow embedding of [src/flowp/flowp.py].  The module has four
    functions: [approx], [plot_polytopes], [_plot_path] and
    [_strip_brackets].  They are written on top of numpy, scipy and plotly;
    what the code uses of those libraries is either defined here from the
    scalar operations (elementwise product, matrix-vector product, addition
    with broadcasting, indexing) or taken as a parameter of the development
    ([expm], [ConvexHull], [str] of a coordinate, [np.random.randint]).

    Python exceptions are modelled by the sum type [result]; the rendering
    side effect (a call of plotly's [plot]) and numpy's global random state
    by explicit state passing. *)

From Stdlib Require Import String DecimalString.
From Stdlib Require Import List ZArith Bool Arith Lia Permutation.
From Stdlib Require Import QArith Qcanon Reals Qreals Lra Psatz.
Close Scope R_scope.
Close Scope Qc_scope.
Close Scope Q_scope.
Import ListNotations.

Set Implicit Arguments.

(** ** Exceptions and the error monad *)

Inductive exn : Type :=
| ValueError    (* numpy: shapes do not fit; scipy: bad input array *)
| IndexError    (* indexing past the end of an array *)
| LinAlgError   (* scipy.linalg failure *)
| QhullError.   (* scipy.spatial: Qhull could not build a hull *)

Definition result (A : Type) : Type := (exn + A)%type.

Definition ok {A} (a : A) : result A := inr a.
Definition raise {A} (e : exn) : result A := inl e.

Definition bind {A B} (r : result A) (k : A -> result B) : result B :=
  match r with
  | inl e => inl e
  | inr a => k a
  end.

Declare Scope py_scope.
Delimit Scope py_scope with py.
Notation "x <- c ;; k" := (bind c (fun x => k))
  (at level 61, c at next level, right associativity) : py_scope.
Open Scope py_scope.

(** A list comprehension (or a [for] loop building a list) whose body may
    raise: the first exception aborts the whole comprehension. *)
Fixpoint mapM {A B} (f : A -> result B) (l : list A) : result (list B) :=
  match l with
  | [] => ok []
  | a :: l' =>
      b <- f a ;;
      bs <- mapM f l' ;;
      ok (b :: bs)
  end.

(** Python's truth value of a list: [if bloating:]. *)
Definition truthy {A} (l : list A) : bool :=
  match l with
  | [] => false
  | _ :: _ => true
  end.

(** A keyword argument with a default value. *)
Definition default {A} (d : A) (arg : option A) : A :=
  match arg with
  | Some a => a
  | None => d
  end.

(** [itertools.product(xs, ys)]: the first component varies slowest. *)
Definition product {A B} (xs : list A) (ys : list B) : list (A * B) :=
  list_prod xs ys.

Module Flowp.

Section Defs.

(** ** Scalars and arrays *)

Variable scalar : Type.
Variables zero one tenth : scalar.           (* the literals 0, 1 and 0.1 *)
Variables sadd ssub smul : scalar -> scalar -> scalar.

(** A one-dimensional array (a point) and a two-dimensional one, row by
    row. *)
Definition vec : Type := list scalar.
Definition matrix : Type := list (list scalar).

Definition ncols (m : matrix) : nat :=
  match m with
  | [] => 0
  | row :: _ => length row
  end.

(** [s * m] for a Python number [s] and an array [m]. *)
Definition scale (s : scalar) (m : matrix) : matrix :=
  map (map (smul s)) m.

Definition dot (u v : vec) : scalar :=
  match map (fun '(a, b) => smul a b) (combine u v) with
  | [] => zero
  | p :: ps => fold_left sadd ps p
  end.

(** [m @ v] for a two-dimensional [m] and a one-dimensional [v]: numpy
    raises ValueError unless [v] has as many entries as [m] has columns. *)
Definition matmul (m : matrix) (v : vec) : result vec :=
  if length v =? ncols m then ok (map (fun row => dot row v) m)
  else raise ValueError.

(** An elementwise binary operation on two one-dimensional arrays with
    numpy's broadcasting: equal lengths, or one side of length one. *)
Definition broadcast (op : scalar -> scalar -> scalar) (u v : vec)
  : result vec :=
  if length u =? length v then ok (map (fun '(a, b) => op a b) (combine u v))
  else match u, v with
       | [a], _ => ok (map (fun b => op a b) v)
       | _, [b] => ok (map (fun a => op a b) u)
       | _, _ => raise ValueError
       end.

Definition np_add : vec -> vec -> result vec := broadcast sadd.
Definition np_sub : vec -> vec -> result vec := broadcast ssub.

(** [np.array(rows)] on a list of one-dimensional arrays: the rows must
    have one length. *)
Definition np_array (rows : list vec) : result (list vec) :=
  match rows with
  | [] => ok []
  | r :: _ =>
      if forallb (fun r' => length r' =? length r) rows then ok rows
      else raise ValueError
  end.

(** [a[i]] on the first axis. *)
Definition getitem {A} (a : list A) (i : nat) : result A :=
  match nth_error a i with
  | Some x => ok x
  | None => raise IndexError
  end.

(** ** The two scipy routines *)

(** [scipy.linalg.expm]. *)
Variable expm : matrix -> result matrix.

(** The object built by [scipy.spatial.ConvexHull(points)]: the attribute
    [points] and the attribute [vertices], indices into [points]. *)
Record hull : Type := Hull {
  hull_points : list vec;
  hull_vertices : list nat
}.

Variable ConvexHull : list vec -> result hull.

(** ** Polytope records *)

(** The dict [{'name': ..., 'vertices': ...}]. *)
Record polytope : Type := Polytope {
  name : string;
  vertices : list vec
}.

(** Body of the loop at the end of [approx]: the vertex list of a record
    is replaced by the hull's points at the hull's vertex indices. *)
Definition hull_reduce (pts : list vec) : result (list vec) :=
  conv_hull <- ConvexHull pts ;;
  mapM (fun vert => getitem (hull_points conv_hull) vert)
       (hull_vertices conv_hull).

Definition reduce_polytope (p : polytope) : result polytope :=
  vs <- hull_reduce (vertices p) ;;
  ok (Polytope (name p) vs).

(** ** Rendering state *)

Record scatter : Type := Scatter {
  sc_x : list scalar;
  sc_y : list scalar;
  sc_text : list string;
  sc_mode : string
}.

Record shape : Type := Shape {
  sh_type : string;
  sh_path : option string;
  sh_fillcolor : string
}.

Record axis : Type := Axis { zerolinecolor : string }.

Record layout : Type := Layout {
  shapes : list shape;
  xaxis : axis;
  yaxis : axis
}.

Record figure : Type := Figure {
  data : list scatter;
  fig_layout : layout
}.

(** numpy's global random state, and [np.random.randint(low, high, size)]
    on it. *)
Variable rng_state : Type.
Variable randint : Z -> Z -> nat -> rng_state -> list Z * rng_state.

(** What a call can change outside its return value: the random state and
    the figures handed to plotly's [plot]. *)
Record world : Type := World {
  np_random : rng_state;
  plotted : list figure
}.

Definition io (A : Type) : Type := world -> result (A * world).

Definition io_ret {A} (a : A) : io A := fun w => ok (a, w).

Definition io_bind {A B} (c : io A) (k : A -> io B) : io B :=
  fun w =>
    match c w with
    | inl e => inl e
    | inr (a, w') => k a w'
    end.

Definition lift {A} (r : result A) : io A :=
  fun w =>
    match r with
    | inl e => inl e
    | inr a => ok (a, w)
    end.

Fixpoint io_mapM {A B} (f : A -> io B) (l : list A) : io (list B) :=
  match l with
  | [] => io_ret []
  | a :: l' =>
      io_bind (f a) (fun b =>
      io_bind (io_mapM f l') (fun bs =>
      io_ret (b :: bs)))
  end.

(** ** Rendering *)

(** [str] of a coordinate. *)
Variable str : scalar -> string.

Definition str_int (n : Z) : string :=
  NilZero.string_of_int (Z.to_int n).

Definition _strip_brackets (v : vec) : string :=
  String.concat ", " (map str v).

Definition _plot_path (v_repr : list vec) : option string :=
  match v_repr with
  | [] => None
  | v0 :: rest =>
      let start := _strip_brackets v0 in
      Some (("M " ++ start ++ " ")
            ++ String.concat " "
                 (map (fun v => "L " ++ _strip_brackets v) rest)
            ++ (" L " ++ start))%string
  end.

(** What a Python call hands back to its caller. *)
Inductive retval : Type :=
| PyNone
| PyList (polytopes : list polytope).

Definition label_center (p : polytope) : result vec :=
  poly <- np_array (vertices p) ;;
  first <- getitem poly 0 ;;
  np_sub first [zero; tenth].

Definition polytope_shape (p : polytope) : io shape :=
  fun w =>
    let (ns, g) := randint 0 240 3 (np_random w) in
    ok (Shape "path"
              (_plot_path (vertices p))
              ("rgba(" ++ String.concat ", " (map str_int ns) ++ ", 0.2)")%string,
        World g (plotted w)).

(** plotly's [plot(fig)]. *)
Definition plot_figure (fig : figure) : io unit :=
  fun w => ok (tt, World (np_random w) (plotted w ++ [fig])).

Definition plot_polytopes (polytopes : list polytope) : io retval :=
  io_bind (lift (mapM label_center polytopes)) (fun centers =>
  let labels_x := map (fun c => nth 0 c zero) centers in
  let labels_y := map (fun c => nth 1 c zero) centers in
  let label_trace :=
    Scatter labels_x labels_y (map name polytopes) "text" in
  let data := [label_trace] in
  io_bind (io_mapM polytope_shape polytopes) (fun shapes =>
  let layout :=
    Layout shapes
           (Axis "rgba(0, 0, 0, 0.15)")
           (Axis "rgba(0, 0, 0, 0.15)") in
  let fig := Figure data layout in
  io_bind (plot_figure fig) (fun _ =>
  io_ret PyNone))).

(** ** The approximation *)

Definition approx (initial_location : list vec) (flow : matrix)
           (bloating : list vec)
           (step_size : option scalar) (plot : option bool) : io retval :=
  let step_size := default one step_size in
  let plot := default true plot in
  io_bind (lift (expm (scale step_size flow))) (fun matrix_exp =>
  io_bind (lift (mapM (fun v => matmul matrix_exp v) initial_location))
          (fun flowpipe =>
  io_bind (lift (if truthy bloating
                 then mapM (fun '(v1, v2) => np_add v1 v2)
                           (product flowpipe bloating)
                 else ok flowpipe)) (fun bloated_flowpipe =>
  let bloated_flowpipe_with_init :=
    bloated_flowpipe ++ initial_location in
  let polytopes :=
    [ Polytope "Initial Valuation I" initial_location;
      Polytope "mat_exp(flow) * I" flowpipe;
      Polytope "Omega_1: convHull(mink_sum(mat_exp(flow) * I, bloat), I)"
               bloated_flowpipe_with_init ] in
  let polytopes :=
    if truthy bloating
    then polytopes ++ [Polytope "Bloating" bloating]
    else polytopes in
  io_bind (lift (mapM reduce_polytope polytopes)) (fun polytopes =>
  if plot then plot_polytopes polytopes
  else io_ret (PyList polytopes))))).

(** ** Vocabulary of the specification *)

(** The value of [bloated_flowpipe], from the value of [flowpipe]: the sums
    over the Cartesian product when there is a bloating region, the
    propagated points themselves otherwise. *)
Definition bloated (flowpipe bloating : list vec) : result (list vec) :=
  if truthy bloating
  then mapM (fun '(v1, v2) => np_add v1 v2) (product flowpipe bloating)
  else ok flowpipe.

(** The list [polytopes] of [approx] as it stands when its last loop starts,
    from the values of [flowpipe] and [bloated_flowpipe]. *)
Definition candidates (initial_location flowpipe bloated_flowpipe
                       bloating : list vec) : list polytope :=
  [ Polytope "Initial Valuation I" initial_location;
    Polytope "mat_exp(flow) * I" flowpipe;
    Polytope "Omega_1: convHull(mink_sum(mat_exp(flow) * I, bloat), I)"
             (bloated_flowpipe ++ initial_location) ]
  ++ (if truthy bloating then [Polytope "Bloating" bloating] else []).

(** The [n] by [n] zero and identity matrices. *)
Definition zeros (n : nat) : matrix := repeat (repeat zero n) n.

Definition unit_row (n i : nat) : vec :=
  map (fun j => if j =? i then one else zero) (seq 0 n).

Definition identity (n : nat) : matrix :=
  map (unit_row n) (seq 0 n).

(** Coordinates of a point of the plane, and the orientation determinant of
    three points: positive when [p], [q], [r] turn counter-clockwise. *)
Definition xc (p : vec) : scalar := nth 0 p zero.
Definition yc (p : vec) : scalar := nth 1 p zero.

Definition cross (p q r : vec) : scalar :=
  ssub (smul (ssub (xc q) (xc p)) (ssub (yc r) (yc p)))
       (smul (ssub (yc q) (yc p)) (ssub (xc r) (xc p))).

Definition collinear (pts : list vec) : Prop :=
  forall p q r, In p pts -> In q pts -> In r pts -> cross p q r = zero.

(** Degenerate input of a planar hull computation: points of the plane, no
    three of which span a triangle. *)
Definition degenerate (pts : list vec) : Prop :=
  (forall p, In p pts -> length p = 2)
  /\ (length pts < 3 \/ collinear pts).

End Defs.

Arguments PyNone {scalar}.
Arguments name {scalar} _.
Arguments vertices {scalar} _.
Arguments hull_points {scalar} _.
Arguments hull_vertices {scalar} _.

End Flowp.

Import Flowp.

(** * An exact instance of the libraries

    Rational numbers in canonical form ([Qc]) for the scalars, and routines
    that compute exactly on them.  The instance is what the closed examples
    below are evaluated with. *)

Definition Qvec : Type := vec Qc.
Definition Qmatrix : Type := matrix Qc.

Definition Qc_ltb (x y : Qc) : bool :=
  match (x ?= y)%Qc with Lt => true | _ => false end.

Definition Qc_leb (x y : Qc) : bool :=
  match (x ?= y)%Qc with Gt => false | _ => true end.

Fixpoint vec_eqb (u v : Qvec) : bool :=
  match u, v with
  | [], [] => true
  | a :: u', b :: v' => Qc_eq_bool a b && vec_eqb u' v'
  | _, _ => false
  end.

(** ** Matrix exponential, where it is rational *)

Definition is_square (a : Qmatrix) : bool :=
  forallb (fun row => length row =? length a) a.

Definition is_zero_matrix (a : Qmatrix) : bool :=
  forallb (forallb (fun x => Qc_eq_bool x 0%Qc)) a.

Definition column (j : nat) (a : Qmatrix) : Qvec :=
  map (fun row => nth j row 0%Qc) a.

Definition mat_mul (a b : Qmatrix) : Qmatrix :=
  map (fun row =>
         map (fun j => dot 0%Qc Qcplus Qcmult row (column j b))
             (seq 0 (ncols b)))
      a.

Definition mat_add (a b : Qmatrix) : Qmatrix :=
  map (fun '(r1, r2) => map (fun '(x, y) => (x + y)%Qc) (combine r1 r2))
      (combine a b).

(** Modelled from the spec: [scipy.linalg.expm], which is not part of the
    repository; the spec asks for the standard mathematical matrix
    exponential.  For a square matrix [a] with [a * a = 0] the series stops
    after two terms, [exp a = I + a], and that is what is computed.  On
    other square matrices the exponential has irrational entries, which
    [Qc] does not hold: LinAlgError.  A matrix that is not square is
    refused with ValueError, as scipy does. *)
Definition expm_exact (a : Qmatrix) : result Qmatrix :=
  if negb (is_square a) then raise ValueError
  else if is_zero_matrix (mat_mul a a)
       then ok (mat_add (identity 0%Qc 1%Qc (length a)) a)
       else raise LinAlgError.

(** ** Convex hull of points of the plane

    A point [p] of the input is a vertex of the hull when some other input
    point [q] gives a supporting line: every input point lies strictly to
    the left of the line from [p] to [q], or on it and not behind [p]. *)

Definition Qcross (p q r : Qvec) : Qc := cross 0%Qc Qcminus Qcmult p q r.

(** Scalar product of [q - p] and [r - p]. *)
Definition along (p q r : Qvec) : Qc :=
  ((xc 0 q - xc 0 p) * (xc 0 r - xc 0 p)
   + (yc 0 q - yc 0 p) * (yc 0 r - yc 0 p))%Qc.

Definition ahead (p q r : Qvec) : bool :=
  Qc_ltb 0%Qc (Qcross p q r)
  || (Qc_eq_bool (Qcross p q r) 0%Qc && Qc_leb 0%Qc (along p q r)).

Definition supports (pts : list Qvec) (p q : Qvec) : bool :=
  negb (vec_eqb q p) && forallb (ahead p q) pts.

Definition is_vertex (pts : list Qvec) (p : Qvec) : bool :=
  existsb (supports pts p) pts.

Definition first_at (pts : list Qvec) (i : nat) (p : Qvec) : bool :=
  negb (existsb (vec_eqb p) (firstn i pts)).

Definition vertex_indices (pts : list Qvec) : list nat :=
  filter (fun i =>
            match nth_error pts i with
            | Some p => is_vertex pts p && first_at pts i p
            | None => false
            end)
         (seq 0 (length pts)).

Definition collinear_b (pts : list Qvec) : bool :=
  forallb (fun p =>
    forallb (fun q =>
      forallb (fun r => Qc_eq_bool (Qcross p q r) 0%Qc) pts) pts) pts.

Definition planar (pts : list Qvec) : bool :=
  forallb (fun p => length p =? 2) pts.

Definition lex_ltb (p q : Qvec) : bool :=
  Qc_ltb (xc 0%Qc p) (xc 0%Qc q)
  || (Qc_eq_bool (xc 0%Qc p) (xc 0%Qc q) && Qc_ltb (yc 0%Qc p) (yc 0%Qc q)).

Definition point_at (pts : list Qvec) (i : nat) : Qvec := nth i pts [].

(** Index of the lexicographically lowest point among [idxs]. *)
Fixpoint lowest (pts : list Qvec) (idxs : list nat) : option nat :=
  match idxs with
  | [] => None
  | i :: rest =>
      match lowest pts rest with
      | None => Some i
      | Some j =>
          if lex_ltb (point_at pts j) (point_at pts i) then Some j else Some i
      end
  end.

Fixpoint insert_by (lt : nat -> nat -> bool) (i : nat) (l : list nat)
  : list nat :=
  match l with
  | [] => [i]
  | j :: l' => if lt i j then i :: l else j :: insert_by lt i l'
  end.

Definition sort_by (lt : nat -> nat -> bool) (l : list nat) : list nat :=
  fold_right (insert_by lt) [] l.

Definition counter_clockwise (pts : list Qvec) (idxs : list nat) : list nat :=
  match lowest pts idxs with
  | None => []
  | Some k =>
      k :: sort_by (fun i j =>
                      Qc_ltb 0%Qc (Qcross (point_at pts k) (point_at pts i)
                                          (point_at pts j)))
                   (remove Nat.eq_dec k idxs)
  end.

(** Modelled from the spec: [scipy.spatial.ConvexHull] (Qhull), which is
    not part of the repository.  The spec asks for the convex hull of points
    of the plane with only hull vertices kept, in counter-clockwise
    traversal order, and for a failure when fewer than three points remain
    or all points are on one line.  Here: the attribute [points] is the
    input; [vertices] lists the vertices counter-clockwise from the lowest
    one in the lexicographic order, each by the index of its first
    occurrence; a point set on one line (so any with fewer than three
    points) is refused with QhullError, an empty one or one with a point
    that has not two coordinates with ValueError. *)
Definition ConvexHull_exact (pts : list Qvec) : result (hull Qc) :=
  match pts with
  | [] => raise ValueError
  | _ :: _ =>
      if negb (planar pts) then raise ValueError
      else if collinear_b pts then raise QhullError
      else ok (Hull pts (counter_clockwise pts (vertex_indices pts)))
  end.

(** ** Rendering parameters *)

Definition str_exact (x : Qc) : string :=
  match Qden x with
  | xH => (str_int (Qnum x) ++ ".0")%string
  | d => (str_int (Qnum x) ++ "/" ++ str_int (Zpos d))%string
  end.

(** A counter for the random state: draw [i] of a request is a fixed
    function of the counter, inside the requested range. *)
Definition randint_exact (low high : Z) (size : nat) (g : nat)
  : list Z * nat :=
  (map (fun i => (low + (Z.of_nat (g + i) * 7919) mod (high - low))%Z)
       (seq 0 size),
   g + size).

Definition tenth_exact : Qc := Q2Qc (1 # 10).

Definition approx_exact :=
  approx 0%Qc 1%Qc tenth_exact Qcplus Qcminus Qcmult
         expm_exact ConvexHull_exact randint_exact str_exact.

Definition hull_reduce_exact : list Qvec -> result (list Qvec) :=
  hull_reduce ConvexHull_exact.

Definition plot_polytopes_exact :=
  plot_polytopes 0%Qc tenth_exact Qcminus randint_exact str_exact.

Definition qpt (x y : Z) : Qvec := [Q2Qc (inject_Z x); Q2Qc (inject_Z y)].

Definition world0 : world Qc nat := World 0 [].

(** ** Vocabulary of plane geometry *)

(** The real number of a rational, for the arithmetic of signs. *)
Definition QcR (x : Qc) : R := Q2R (this x).

(** Same point of the plane: same coordinates. *)
Definition same_place (p q : Qvec) : Prop :=
  xc 0%Qc p = xc 0%Qc q /\ yc 0%Qc p = yc 0%Qc q.

(** Square of the distance from [p] to [q]. *)
Definition norm2 (p q : Qvec) : Qc := along p q q.

(** Seen from [o], and for points turned clockwise from the direction of
    [t] by less than half a turn: [s] is turned at least as far as [r]. *)
Definition turn_le (o t s r : Qvec) : Prop :=
  (along o s t * Qcross o r t <= along o r t * Qcross o s t)%Qc.

(** The point straight above [a], at distance one. *)
Definition above (a : Qvec) : Qvec := [xc 0%Qc a; (yc 0%Qc a + 1)%Qc].

(** Weighted sums over pairs of a weight and a point, and the points that
    are convex combinations of points of [pts]: weights that are not
    negative and add up to one. *)
Fixpoint wsum (f : Qvec -> Qc) (ws : list (Qc * Qvec)) : Qc :=
  match ws with
  | [] => 0%Qc
  | (l, p) :: ws' => (l * f p + wsum f ws')%Qc
  end.

Definition convex_combination (pts : list Qvec) (v : Qvec) : Prop :=
  exists ws : list (Qc * Qvec),
    (forall l p, In (l, p) ws -> (0 <= l)%Qc /\ In p pts) /\
    wsum (fun _ => 1%Qc) ws = 1%Qc /\
    wsum (xc 0%Qc) ws = xc 0%Qc v /\
    wsum (yc 0%Qc) ws = yc 0%Qc v.

(** ** Inputs of the closed examples *)

Definition unit_square : list Qvec := [qpt 0 0; qpt 1 0; qpt 1 1; qpt 0 1].

Definition triangle : list Qvec := [qpt 0 0; qpt 1 0; qpt 0 1].

Definition on_a_line : list Qvec := [qpt 0 0; qpt 1 0; qpt 2 0].

(** The flow [[0, 1], [0, 0]], whose exponential over a step [t] is
    [[1, t], [0, 1]]. *)
Definition shear : Qmatrix :=
  [[Q2Qc 0; Q2Qc 1]; [Q2Qc 0; Q2Qc 0]].

(** Two records of the plane, a record of space and one without
    vertices. *)
Definition two_records : list (polytope Qc) :=
  [Polytope "square" unit_square; Polytope "triangle" triangle].

Definition solid : polytope Qc :=
  Polytope "solid" [[Q2Qc 0; Q2Qc 0; Q2Qc 0]; [Q2Qc 1; Q2Qc 0; Q2Qc 0]].


(** * Properties of the embedding *)

(** ** The error monad *)

Lemma bind_ok {A B} (r : result A) (k : A -> result B) (b : B) :
  bind r k = inr b -> exists a, r = inr a /\ k a = inr b.
Proof.
  destruct r as [e | a]; simpl; intros H; [discriminate | eauto].
Qed.

Lemma mapM_ok_Forall2 {A B} (f : A -> result B) (l : list A) (l' : list B) :
  mapM f l = inr l' <-> Forall2 (fun a b => f a = inr b) l l'.
Proof.
  revert l'; induction l as [| a l IH]; intros l'; simpl.
  - unfold ok; split.
    + intros H; inversion H; constructor.
    + intros H; inversion H; reflexivity.
  - split.
    + intros H.
      apply bind_ok in H as (b & Hb & H).
      apply bind_ok in H as (bs & Hbs & H).
      inversion H; subst; constructor; [assumption | now apply IH].
    + intros H; inversion H as [| a' b l0 bs Hb Hbs]; subst.
      rewrite Hb; simpl.
      apply IH in Hbs; rewrite Hbs; reflexivity.
Qed.

Lemma mapM_ok_length {A B} (f : A -> result B) (l : list A) (l' : list B) :
  mapM f l = inr l' -> length l' = length l.
Proof.
  intros H; apply mapM_ok_Forall2 in H.
  symmetry; eapply Forall2_length; eassumption.
Qed.

(** The first element that raises decides the outcome of the whole
    comprehension. *)
Lemma mapM_first_raise {A B} (f : A -> result B) (pre post : list A)
      (c : A) (e : exn) :
  (forall a, In a pre -> exists b, f a = inr b) ->
  f c = inl e ->
  mapM f (pre ++ c :: post) = inl e.
Proof.
  induction pre as [| a pre IH]; intros Hpre Hc; simpl.
  - rewrite Hc; reflexivity.
  - destruct (Hpre a (or_introl eq_refl)) as (b & Hb).
    rewrite Hb; simpl.
    rewrite IH; [reflexivity | | assumption].
    intros a' Ha'; apply Hpre; right; assumption.
Qed.

Lemma product_length {A B} (xs : list A) (ys : list B) :
  length (product xs ys) = length xs * length ys.
Proof. apply length_prod. Qed.

Section Theory.

Variable scalar : Type.
Variables zero one tenth : scalar.
Variables sadd ssub smul : scalar -> scalar -> scalar.
Variable expm : matrix scalar -> result (matrix scalar).
Variable ConvexHull : list (vec scalar) -> result (hull scalar).
Variable rng_state : Type.
Variable randint : Z -> Z -> nat -> rng_state -> list Z * rng_state.
Variable str : scalar -> string.

Local Abbreviation vec := (vec scalar).
Local Abbreviation matrix := (matrix scalar).
Local Abbreviation polytope := (polytope scalar).
Local Abbreviation scale := (scale smul).
Local Abbreviation matmul := (matmul zero sadd smul).
Local Abbreviation np_add := (np_add sadd).
Local Abbreviation hull_reduce := (hull_reduce ConvexHull).
Local Abbreviation reduce_polytope := (reduce_polytope ConvexHull).
Local Abbreviation plot_polytopes := (plot_polytopes zero tenth ssub randint str).
Local Abbreviation approx :=
  (approx zero one tenth sadd ssub smul expm ConvexHull randint str).
Local Abbreviation zeros := (zeros zero).
Local Abbreviation identity := (identity zero one).
Local Abbreviation degenerate := (degenerate zero ssub smul).

Local Abbreviation bloated := (bloated sadd).

(** ** [approx], stage by stage *)

Lemma approx_unfold (initial_location : list vec) (flow : matrix)
      (bloating : list vec) (step_size : option scalar)
      (plot : option bool) (w : world scalar rng_state) :
  approx initial_location flow bloating step_size plot w =
  match expm (scale (default one step_size) flow) with
  | inl e => inl e
  | inr matrix_exp =>
    match mapM (fun v => matmul matrix_exp v) initial_location with
    | inl e => inl e
    | inr flowpipe =>
      match bloated flowpipe bloating with
      | inl e => inl e
      | inr sums =>
        match mapM reduce_polytope
                   (candidates initial_location flowpipe sums bloating)
        with
        | inl e => inl e
        | inr polytopes =>
            if default true plot then plot_polytopes polytopes w
            else inr (PyList polytopes, w)
        end
      end
    end
  end.
Proof.
  unfold Flowp.approx, Flowp.bloated, io_bind, lift, candidates, ok.
  destruct (expm _) as [e | M]; cbv beta match zeta; [reflexivity |].
  destruct (mapM _ initial_location) as [e | fp]; cbv beta match zeta;
    [reflexivity |].
  destruct bloating as [| b bl]; cbn [truthy]; cbv beta match zeta.
  - cbn [app].
    destruct (mapM _ _) as [e | ps]; cbv beta match; [reflexivity |].
    destruct (default true plot); reflexivity.
  - destruct (mapM _ (product fp (b :: bl))) as [e | sums];
      cbv beta match zeta; [reflexivity |].
    destruct (mapM _ _) as [e | ps]; cbv beta match; [reflexivity |].
    destruct (default true plot); reflexivity.
Qed.

Lemma reduce_polytope_ok (p r : polytope) :
  reduce_polytope p = inr r <->
  exists vs, hull_reduce (vertices p) = inr vs /\ r = Polytope (name p) vs.
Proof.
  unfold Flowp.reduce_polytope; split.
  - intros H; apply bind_ok in H as (vs & Hvs & H).
    inversion H; eauto.
  - intros (vs & Hvs & ->); rewrite Hvs; reflexivity.
Qed.

Lemma mapM_reduce_ok (ps rs : list polytope) :
  mapM reduce_polytope ps = inr rs <->
  Forall2 (fun p r => exists vs, hull_reduce (vertices p) = inr vs /\
                                 r = Polytope (name p) vs) ps rs.
Proof.
  rewrite mapM_ok_Forall2.
  split; intros H; induction H; constructor; try assumption;
    now apply reduce_polytope_ok.
Qed.

(** A call with the rendering flag off hands back records exactly when
    every stage went through, and then leaves the world as it was. *)
Lemma approx_returns_data (initial_location : list vec) (flow : matrix)
      (bloating : list vec) (step_size : option scalar)
      (w w' : world scalar rng_state) (recs : list polytope) :
  approx initial_location flow bloating step_size (Some false) w
  = inr (PyList recs, w') <->
  exists matrix_exp flowpipe sums,
    expm (scale (default one step_size) flow) = inr matrix_exp /\
    mapM (fun v => matmul matrix_exp v) initial_location = inr flowpipe /\
    bloated flowpipe bloating = inr sums /\
    mapM reduce_polytope
         (candidates initial_location flowpipe sums bloating) = inr recs /\
    w' = w.
Proof.
  rewrite approx_unfold; cbn [default].
  split.
  - destruct (expm _) as [e | M] eqn:E1; [discriminate |].
    destruct (mapM _ initial_location) as [e | fp] eqn:E2; [discriminate |].
    destruct (bloated fp bloating) as [e | sums] eqn:E3; [discriminate |].
    destruct (mapM reduce_polytope _) as [e | ps] eqn:E4; [discriminate |].
    intros H; inversion H; subst. exists M, fp, sums; auto.
  - intros (M & fp & sums & H1 & H2 & H3 & H4 & ->).
    rewrite H1, H2, H3, H4; reflexivity.
Qed.

(** The records of a successful call, one by one. *)
Lemma candidates_reduced (initial_location flowpipe sums bloating : list vec)
      (recs : list polytope) :
  mapM reduce_polytope (candidates initial_location flowpipe sums bloating)
  = inr recs ->
  exists v0 v1 v2,
    hull_reduce initial_location = inr v0 /\
    hull_reduce flowpipe = inr v1 /\
    hull_reduce (sums ++ initial_location) = inr v2 /\
    ((bloating = [] /\
      recs = [ Polytope "Initial Valuation I" v0;
               Polytope "mat_exp(flow) * I" v1;
               Polytope
                 "Omega_1: convHull(mink_sum(mat_exp(flow) * I, bloat), I)"
                 v2 ])
     \/ (bloating <> [] /\
         exists v3,
           hull_reduce bloating = inr v3 /\
           recs = [ Polytope "Initial Valuation I" v0;
                    Polytope "mat_exp(flow) * I" v1;
                    Polytope
                      "Omega_1: convHull(mink_sum(mat_exp(flow) * I, bloat), I)"
                      v2;
                    Polytope "Bloating" v3 ])).
Proof.
  intros H; apply mapM_reduce_ok in H.
  unfold candidates in H.
  inversion H as [| c0 r0 cs0 rs0 (v0 & H0 & E0) T0]; subst; clear H.
  inversion T0 as [| c1 r1 cs1 rs1 (v1 & H1 & E1) T1]; subst; clear T0.
  inversion T1 as [| c2 r2 cs2 rs2 (v2 & H2 & E2) T2]; subst; clear T1.
  cbn [vertices name] in *.
  exists v0, v1, v2; repeat (split; [assumption |]).
  destruct bloating as [| b bl]; cbn [truthy] in T2.
  - inversion T2; subst. left; split; reflexivity.
  - inversion T2 as [| c3 r3 cs3 rs3 (v3 & H3 & E3) T3]; subst; clear T2.
    inversion T3; subst.
    right; split; [discriminate |].
    exists v3; split; [assumption | reflexivity].
Qed.

(** ** The emitted records *)

(** C1.  Whenever a call returns its records, the one named
    ['mat_exp(flow) * I'] is the hull reduction of the list of the points
    [M @ v], [v] ranging over the initial region in order, where
    [M = expm (step_size * flow)].  It is the second record and the only
    one of that name.  This holds for every step size, so in particular
    for the positive ones. *)
Theorem propagated_record (initial_location : list vec) (flow : matrix)
        (bloating : list vec) (step_size : option scalar)
        (w w' : world scalar rng_state) (recs : list polytope) :
  approx initial_location flow bloating step_size (Some false) w
  = inr (PyList recs, w') ->
  exists matrix_exp flowpipe vs,
    expm (scale (default one step_size) flow) = inr matrix_exp /\
    Forall2 (fun v p => matmul matrix_exp v = inr p)
            initial_location flowpipe /\
    hull_reduce flowpipe = inr vs /\
    nth_error recs 1 = Some (Polytope "mat_exp(flow) * I" vs) /\
    forall p, In p recs -> name p = "mat_exp(flow) * I"%string ->
              vertices p = vs.
Proof.
  intros H.
  apply approx_returns_data in H as (M & fp & sums & HM & Hfp & _ & Hrecs & _).
  apply candidates_reduced in Hrecs
    as (v0 & v1 & v2 & _ & H1 & _ & [(_ & ->) | (_ & v3 & _ & ->)]);
    exists M, fp, v1;
    (split; [exact HM |]);
    (split; [now apply mapM_ok_Forall2 |]);
    (split; [exact H1 |]);
    (split; [reflexivity |]);
    intros p Hp Hname; simpl in Hp;
    repeat (destruct Hp as [<- | Hp]; [try reflexivity; discriminate Hname |]);
    contradiction.
Qed.

(** C2.  With a bloating region that is not empty, the record of the
    enclosure is the hull reduction of the sums [p + b] over all pairs of
    the Cartesian product (propagated points, [p] slowest, times bloating
    points), followed by the points of the initial region as given.  The
    list of sums has (number of propagated points) times (number of bloating
    points) entries. *)
Theorem enclosure_record (initial_location : list vec) (flow : matrix)
        (bloating : list vec) (step_size : option scalar)
        (w w' : world scalar rng_state) (recs : list polytope) :
  bloating <> [] ->
  approx initial_location flow bloating step_size (Some false) w
  = inr (PyList recs, w') ->
  exists matrix_exp flowpipe sums vs,
    expm (scale (default one step_size) flow) = inr matrix_exp /\
    mapM (fun v => matmul matrix_exp v) initial_location = inr flowpipe /\
    Forall2 (fun pb s => np_add (fst pb) (snd pb) = inr s)
            (product flowpipe bloating) sums /\
    length sums = length flowpipe * length bloating /\
    length flowpipe = length initial_location /\
    hull_reduce (sums ++ initial_location) = inr vs /\
    nth_error recs 2
    = Some (Polytope
              "Omega_1: convHull(mink_sum(mat_exp(flow) * I, bloat), I)" vs).
Proof.
  intros Hne H.
  apply approx_returns_data in H as (M & fp & sums & HM & Hfp & Hs & Hrecs & _).
  unfold Flowp.bloated in Hs.
  destruct bloating as [| b bl]; [contradiction |]; cbn [truthy] in Hs.
  assert (Hsums : Forall2 (fun pb s => np_add (fst pb) (snd pb) = inr s)
                          (product fp (b :: bl)) sums).
  { apply mapM_ok_Forall2 in Hs.
    eapply Forall2_impl; [| exact Hs].
    intros [v1 v2] s Hadd; exact Hadd. }
  apply candidates_reduced in Hrecs
    as (v0 & v1 & v2 & _ & _ & H2 & [(_ & ->) | (_ & v3 & _ & ->)]);
    exists M, fp, sums, v2;
    (split; [exact HM |]);
    (split; [exact Hfp |]);
    (split; [exact Hsums |]);
    (split; [rewrite <- product_length; symmetry;
             eapply Forall2_length; exact Hsums |]);
    (split; [eapply mapM_ok_length; exact Hfp |]);
    (split; [exact H2 | reflexivity]).
Qed.

(** C4.  The records come in the fixed order initial valuation, propagated
    region, enclosure; a fourth record, named ['Bloating'] and holding the
    hull reduction of the bloating region, is there exactly when the
    bloating region is not empty. *)
Theorem record_order (initial_location : list vec) (flow : matrix)
        (bloating : list vec) (step_size : option scalar)
        (w w' : world scalar rng_state) (recs : list polytope) :
  approx initial_location flow bloating step_size (Some false) w
  = inr (PyList recs, w') ->
  map name recs
  = [ "Initial Valuation I"%string;
      "mat_exp(flow) * I"%string;
      "Omega_1: convHull(mink_sum(mat_exp(flow) * I, bloat), I)"%string ]
    ++ (if truthy bloating then ["Bloating"%string] else []) /\
  (In "Bloating"%string (map name recs) <-> bloating <> []) /\
  (bloating <> [] ->
   exists vs, hull_reduce bloating = inr vs /\
              nth_error recs 3 = Some (Polytope "Bloating" vs)) /\
  (bloating = [] -> nth_error recs 3 = None).
Proof.
  intros H.
  apply approx_returns_data in H as (M & fp & sums & _ & _ & _ & Hrecs & _).
  apply candidates_reduced in Hrecs
    as (v0 & v1 & v2 & _ & _ & _ & [(-> & ->) | (Hne & v3 & H3 & ->)]).
  - split; [reflexivity |].
    split; [| split; [intros Hc; contradiction | reflexivity]].
    split; [| intros Hc; contradiction].
    simpl; intros [Hc | [Hc | [Hc | []]]]; discriminate Hc.
  - destruct bloating as [| b bl]; [contradiction |].
    split; [reflexivity |].
    split; [| split; [intros _; exists v3; split; [exact H3 | reflexivity]
                     | intros Hc; discriminate Hc]].
    split; [intros _; discriminate |].
    intros _; simpl; auto.
Qed.

(** C5.  With an empty bloating region there are three records, none of
    them named ['Bloating'], and the enclosure is the hull reduction of the
    propagated points followed by the points of the initial region. *)
Theorem empty_bloating (initial_location : list vec) (flow : matrix)
        (step_size : option scalar)
        (w w' : world scalar rng_state) (recs : list polytope) :
  approx initial_location flow [] step_size (Some false) w
  = inr (PyList recs, w') ->
  ~ In "Bloating"%string (map name recs) /\
  length recs = 3 /\
  exists matrix_exp flowpipe vs,
    expm (scale (default one step_size) flow) = inr matrix_exp /\
    mapM (fun v => matmul matrix_exp v) initial_location = inr flowpipe /\
    hull_reduce (flowpipe ++ initial_location) = inr vs /\
    nth_error recs 2
    = Some (Polytope
              "Omega_1: convHull(mink_sum(mat_exp(flow) * I, bloat), I)" vs).
Proof.
  intros H.
  apply approx_returns_data in H as (M & fp & sums & HM & Hfp & Hs & Hrecs & _).
  unfold Flowp.bloated in Hs; cbn [truthy] in Hs; inversion Hs; subst sums.
  apply candidates_reduced in Hrecs
    as (v0 & v1 & v2 & _ & _ & H2 & [(_ & ->) | (Hne & _)]);
    [| contradiction].
  split; [simpl; intros [Hc | [Hc | [Hc | []]]]; discriminate Hc |].
  split; [reflexivity |].
  exists M, fp, v2; auto.
Qed.

(** ** Hull reduction selects input points *)

Lemma hull_reduce_ok (pts vs : list vec) :
  hull_reduce pts = inr vs <->
  exists conv_hull,
    ConvexHull pts = inr conv_hull /\
    Forall2 (fun vert v => nth_error (hull_points conv_hull) vert = Some v)
            (hull_vertices conv_hull) vs.
Proof.
  unfold Flowp.hull_reduce; split.
  - intros H; apply bind_ok in H as (h & Hh & H).
    exists h; split; [assumption |].
    apply mapM_ok_Forall2 in H.
    eapply Forall2_impl; [| exact H].
    intros i v; unfold getitem.
    destruct (nth_error _ i); intros E; inversion E; reflexivity.
  - intros (h & Hh & H); rewrite Hh; simpl.
    apply mapM_ok_Forall2.
    eapply Forall2_impl; [| exact H].
    intros i v E; unfold getitem; rewrite E; reflexivity.
Qed.

Lemma hull_reduce_incl (pts vs : list vec) :
  (forall pts conv_hull,
      ConvexHull pts = inr conv_hull -> hull_points conv_hull = pts) ->
  hull_reduce pts = inr vs ->
  forall v, In v vs -> In v pts.
Proof.
  intros Hpoints H v Hv.
  apply hull_reduce_ok in H as (h & Hh & H).
  rewrite (Hpoints _ _ Hh) in H.
  clear Hh; induction H as [| i x idxs xs Hi _ IH]; [contradiction |].
  destruct Hv as [<- | Hv]; [eapply nth_error_In; exact Hi | now apply IH].
Qed.

(** C9.  Under scipy's contract that the attribute [points] of a hull holds
    the input points, every vertex of an emitted record is one of the points
    of the list the record held before the loop: the loop only indexes into
    [points]. *)
Theorem vertices_from_candidates (initial_location : list vec)
        (flow : matrix) (bloating : list vec) (step_size : option scalar)
        (w w' : world scalar rng_state) (recs : list polytope) :
  (forall pts conv_hull,
      ConvexHull pts = inr conv_hull -> hull_points conv_hull = pts) ->
  approx initial_location flow bloating step_size (Some false) w
  = inr (PyList recs, w') ->
  exists matrix_exp flowpipe sums,
    expm (scale (default one step_size) flow) = inr matrix_exp /\
    mapM (fun v => matmul matrix_exp v) initial_location = inr flowpipe /\
    bloated flowpipe bloating = inr sums /\
    Forall2 (fun c r => name r = name c /\
                        forall v, In v (vertices r) -> In v (vertices c))
            (candidates initial_location flowpipe sums bloating) recs.
Proof.
  intros Hpoints H.
  apply approx_returns_data in H as (M & fp & sums & HM & Hfp & Hs & Hrecs & _).
  exists M, fp, sums; repeat (split; [assumption |]).
  apply mapM_reduce_ok in Hrecs.
  eapply Forall2_impl; [| exact Hrecs].
  intros c r (vs & Hvs & ->); cbn [name vertices].
  split; [reflexivity |].
  eapply hull_reduce_incl; eassumption.
Qed.

(** ** Failures *)

(** C3.  Under Qhull's contract that a degenerate set of points of the
    plane (fewer than three points, or all on one line) is refused, a call
    whose loop reaches a record with such a point set raises the exception
    of that refusal for every rendering flag and every world: no records
    are returned and nothing is plotted. *)
Theorem degenerate_hull_aborts (initial_location : list vec) (flow : matrix)
        (bloating : list vec) (step_size : option scalar)
        (matrix_exp : matrix) (flowpipe sums : list vec)
        (pre post : list polytope) (c : polytope) :
  (forall pts, degenerate pts -> exists e, ConvexHull pts = inl e) ->
  expm (scale (default one step_size) flow) = inr matrix_exp ->
  mapM (fun v => matmul matrix_exp v) initial_location = inr flowpipe ->
  bloated flowpipe bloating = inr sums ->
  candidates initial_location flowpipe sums bloating = pre ++ c :: post ->
  (forall p, In p pre -> exists vs, hull_reduce (vertices p) = inr vs) ->
  degenerate (vertices c) ->
  exists e,
    ConvexHull (vertices c) = inl e /\
    forall plot w,
      approx initial_location flow bloating step_size plot w = inl e.
Proof.
  intros Hqhull HM Hfp Hs Hc Hpre Hdeg.
  destruct (Hqhull _ Hdeg) as (e & He).
  exists e; split; [exact He |].
  intros plot w.
  rewrite approx_unfold, HM, Hfp, Hs, Hc.
  rewrite (mapM_first_raise reduce_polytope pre post c (e := e));
    [reflexivity | |].
  - intros p Hp; destruct (Hpre p Hp) as (vs & Hvs).
    exists (Polytope (name p) vs).
    apply reduce_polytope_ok; eauto.
  - unfold Flowp.reduce_polytope, Flowp.hull_reduce.
    rewrite He; reflexivity.
Qed.

Lemma ncols_scale (s : scalar) (m : matrix) : ncols (scale s m) = ncols m.
Proof.
  destruct m as [| row m]; simpl; [reflexivity | apply length_map].
Qed.

Lemma mapM_matmul_mismatch (m : matrix) (l : list vec) :
  (exists v, In v l /\ length v <> ncols m) ->
  mapM (fun v => matmul m v) l = inl ValueError.
Proof.
  induction l as [| a l IH]; intros (v & Hin & Hlen); [contradiction |].
  simpl; unfold Flowp.matmul at 1.
  destruct (length a =? ncols m) eqn:E; [| reflexivity].
  apply Nat.eqb_eq in E; simpl.
  rewrite IH; [reflexivity |].
  destruct Hin as [<- | Hin]; [contradiction | eauto].
Qed.

(** C8, as amended.  When the matrix exponential keeps the number of
    columns of its argument, a call in which some point of the initial
    region has not as many entries as the flow matrix has columns raises:
    the ValueError of the matrix-vector product, unless the matrix
    exponential raised before.  Nothing is said of the step size, which the
    code does not inspect. *)
Theorem dimension_mismatch_raises (initial_location : list vec)
        (flow : matrix) (bloating : list vec) (step_size : option scalar) :
  (forall a m, expm a = inr m -> ncols m = ncols a) ->
  (exists v, In v initial_location /\ length v <> ncols flow) ->
  exists e,
    (e = ValueError \/ expm (scale (default one step_size) flow) = inl e) /\
    forall plot w,
      approx initial_location flow bloating step_size plot w = inl e.
Proof.
  intros Hshape Hmis.
  destruct (expm (scale (default one step_size) flow)) as [e | M] eqn:HM.
  - exists e; split; [right; reflexivity |].
    intros plot w; rewrite approx_unfold, HM; reflexivity.
  - exists ValueError; split; [left; reflexivity |].
    intros plot w; rewrite approx_unfold, HM.
    rewrite mapM_matmul_mismatch; [reflexivity |].
    rewrite (Hshape _ _ HM), ncols_scale; exact Hmis.
Qed.

(** ** The zero flow *)

Section ZeroFlow.

(** The laws of exact arithmetic that the identity step rests on. *)
Hypothesis smul_zero_r : forall s, smul s zero = zero.
Hypothesis smul_zero_l : forall x, smul zero x = zero.
Hypothesis smul_one_l : forall x, smul one x = x.
Hypothesis sadd_zero_l : forall x, sadd zero x = x.
Hypothesis sadd_zero_r : forall x, sadd x zero = x.

Lemma scale_zeros (s : scalar) (n : nat) : scale s (zeros n) = zeros n.
Proof.
  unfold Flowp.scale, Flowp.zeros.
  rewrite !map_repeat, smul_zero_r; reflexivity.
Qed.

Lemma unit_products (i k : nat) (v : vec) :
  map (fun '(a, b) => smul a b)
      (combine (map (fun j => if j =? i then one else zero)
                    (seq k (length v))) v)
  = map (fun '(j, b) => if j =? i then b else zero)
        (combine (seq k (length v)) v).
Proof.
  revert k; induction v as [| x v IH]; intros k; simpl; [reflexivity |].
  rewrite IH; f_equal.
  destruct (k =? i); [apply smul_one_l | apply smul_zero_l].
Qed.

Lemma unit_sum (i : nat) (v : vec) (k : nat) (acc : scalar) :
  fold_left sadd
            (map (fun '(j, b) => if j =? i then b else zero)
                 (combine (seq k (length v)) v))
            acc
  = if (k <=? i) && (i <? k + length v)
    then sadd acc (nth (i - k) v zero)
    else acc.
Proof.
  revert k acc; induction v as [| x v IH]; intros k acc; simpl.
  - destruct (k <=? i) eqn:E1; simpl; [| reflexivity].
    destruct (i <? k + 0) eqn:E2; [| reflexivity].
    apply Nat.leb_le in E1; apply Nat.ltb_lt in E2; lia.
  - rewrite IH.
    destruct (k =? i) eqn:E.
    + apply Nat.eqb_eq in E; subst k.
      replace (S i <=? i) with false by (symmetry; apply Nat.leb_gt; lia).
      replace (i <=? i) with true by (symmetry; apply Nat.leb_le; lia).
      replace (i <? i + S (length v)) with true
        by (symmetry; apply Nat.ltb_lt; lia).
      rewrite Nat.sub_diag; reflexivity.
    + apply Nat.eqb_neq in E; rewrite sadd_zero_r.
      destruct (S k <=? i) eqn:E1.
      * apply Nat.leb_le in E1.
        replace (k <=? i) with true by (symmetry; apply Nat.leb_le; lia).
        replace (i <? k + S (length v)) with (i <? S k + length v)
          by (f_equal; lia).
        destruct (i <? S k + length v); simpl; [| reflexivity].
        replace (i - k) with (S (i - S k)) by lia; reflexivity.
      * apply Nat.leb_gt in E1.
        replace (k <=? i) with false by (symmetry; apply Nat.leb_gt; lia).
        reflexivity.
Qed.

Lemma dot_unit_row (i : nat) (v : vec) :
  i < length v -> dot zero sadd smul (unit_row zero one (length v) i) v
                  = nth i v zero.
Proof.
  intros Hi; unfold Flowp.dot, Flowp.unit_row.
  rewrite unit_products.
  destruct v as [| x v]; [simpl in Hi; lia |].
  cbn [length seq combine map].
  rewrite unit_sum.
  destruct i as [| i]; cbn [Nat.eqb].
  - replace (1 <=? 0) with false by reflexivity; reflexivity.
  - replace (1 <=? S i) with true by (symmetry; apply Nat.leb_le; lia).
    replace (S i <? 1 + length v) with true
      by (symmetry; apply Nat.ltb_lt; simpl in Hi; lia).
    cbn [andb]; rewrite sadd_zero_l.
    replace (S i - 1) with i by lia; reflexivity.
Qed.

Lemma ncols_identity (n : nat) : ncols (identity n) = n.
Proof.
  destruct n as [| n]; [reflexivity |].
  unfold Flowp.identity; cbn [seq map ncols].
  unfold Flowp.unit_row; rewrite length_map, length_seq; reflexivity.
Qed.

Lemma matmul_identity (v : vec) :
  matmul (identity (length v)) v = inr v.
Proof.
  unfold Flowp.matmul.
  rewrite ncols_identity, Nat.eqb_refl.
  unfold ok; f_equal.
  unfold Flowp.identity; rewrite map_map.
  apply nth_ext with (d := zero) (d' := zero).
  - rewrite length_map, length_seq; reflexivity.
  - rewrite length_map, length_seq; intros j Hj.
    rewrite (nth_indep _ zero
               (dot zero sadd smul (unit_row zero one (length v) 0) v))
      by (rewrite length_map, length_seq; exact Hj).
    rewrite (map_nth (fun i => dot zero sadd smul
                                   (unit_row zero one (length v) i) v)).
    rewrite seq_nth by exact Hj.
    apply dot_unit_row; exact Hj.
Qed.

Lemma propagate_identity (n : nat) (pts : list vec) :
  Forall (fun v => length v = n) pts ->
  mapM (fun v => matmul (identity n) v) pts = inr pts.
Proof.
  induction 1 as [| v pts Hv _ IH]; simpl; [reflexivity |].
  subst n; rewrite matmul_identity; simpl.
  rewrite IH; reflexivity.
Qed.

(** C7.  In exact arithmetic, with [expm] of the zero matrix the identity
    matrix: when the flow is the [n] by [n] zero matrix and the points of
    the initial region have [n] coordinates, the propagated record of a
    successful call has the very vertex list of the initial record (the same
    vertices in the same order), whatever the step size. *)
Theorem zero_flow_identity (n : nat) (initial_location bloating : list vec)
        (step_size : option scalar) (w w' : world scalar rng_state)
        (recs : list polytope) :
  expm (zeros n) = inr (identity n) ->
  Forall (fun v => length v = n) initial_location ->
  approx initial_location (zeros n) bloating step_size (Some false) w
  = inr (PyList recs, w') ->
  exists vs,
    nth_error recs 0 = Some (Polytope "Initial Valuation I" vs) /\
    nth_error recs 1 = Some (Polytope "mat_exp(flow) * I" vs) /\
    hull_reduce initial_location = inr vs.
Proof.
  intros Hexp Hdim H.
  apply approx_returns_data in H as (M & fp & sums & HM & Hfp & _ & Hrecs & _).
  rewrite scale_zeros, Hexp in HM; inversion HM; subst M.
  rewrite (propagate_identity Hdim) in Hfp; inversion Hfp; subst fp.
  apply candidates_reduced in Hrecs
    as (v0 & v1 & v2 & H0 & H1 & _ & [(_ & ->) | (_ & v3 & _ & ->)]);
    rewrite H0 in H1; inversion H1; subst v1;
    exists v0; repeat split; assumption.
Qed.

(** ** The zero step *)

Lemma scale_zero_row (row : vec) :
  map (smul zero) row = repeat zero (length row).
Proof.
  induction row as [| x row IH]; simpl; [reflexivity |].
  rewrite smul_zero_l, IH; reflexivity.
Qed.

Lemma scale_zero_step (n : nat) (flow : matrix) :
  length flow = n ->
  Forall (fun row => length row = n) flow ->
  scale zero flow = zeros n.
Proof.
  intros Hlen Hrows; unfold Flowp.scale, Flowp.zeros.
  rewrite <- Hlen at 2; clear Hlen.
  induction Hrows as [| row flow Hrow _ IH]; simpl; [reflexivity |].
  rewrite scale_zero_row, Hrow, IH; reflexivity.
Qed.

(** X1. A step of size zero. In exact arithmetic, with [expm] of the zero
    matrix the identity matrix: for every [n] by [n] flow and points with [n]
    coordinates, a successful call with [step_size = 0] propagates each point
    to itself, so the propagated record has the very vertex list of the
    initial record. The step size is not checked for positivity. *)
Theorem zero_step_identity (n : nat) (initial_location : list vec)
        (flow : matrix) (bloating : list vec)
        (w w' : world scalar rng_state) (recs : list polytope) :
  length flow = n ->
  Forall (fun row => length row = n) flow ->
  expm (zeros n) = inr (identity n) ->
  Forall (fun v => length v = n) initial_location ->
  approx initial_location flow bloating (Some zero) (Some false) w
  = inr (PyList recs, w') ->
  exists vs,
    hull_reduce initial_location = inr vs /\
    nth_error recs 0 = Some (Polytope "Initial Valuation I" vs) /\
    nth_error recs 1 = Some (Polytope "mat_exp(flow) * I" vs).
Proof.
  intros Hlen Hrows Hexp Hdim H.
  apply approx_returns_data in H as (M & fp & sums & HM & Hfp & _ & Hrecs & _).
  cbn [default] in HM.
  rewrite (scale_zero_step Hlen Hrows), Hexp in HM; inversion HM; subst M.
  rewrite (propagate_identity Hdim) in Hfp; inversion Hfp; subst fp.
  apply candidates_reduced in Hrecs
    as (v0 & v1 & v2 & H0 & H1 & _ & [(_ & ->) | (_ & v3 & _ & ->)]);
    rewrite H0 in H1; inversion H1; subst v1;
    exists v0; repeat split; assumption.
Qed.

End ZeroFlow.

(** ** The rendering flag *)

Lemma plot_polytopes_returns (polytopes : list polytope)
      (w w' : world scalar rng_state) (r : retval scalar) :
  plot_polytopes polytopes w = inr (r, w') ->
  r = PyNone /\ exists fig, plotted w' = plotted w ++ [fig].
Proof.
  unfold Flowp.plot_polytopes, io_bind, lift, io_ret, plot_figure, ok.
  destruct (mapM _ polytopes) as [e | centers]; [discriminate |].
  assert (Hshapes : forall ps w0 ss w1,
             io_mapM (polytope_shape randint str) ps w0 = inr (ss, w1) ->
             plotted w1 = plotted w0).
  { induction ps as [| p ps IH]; intros w0 ss w1; simpl.
    - unfold io_ret, ok; intros E; inversion E; reflexivity.
    - unfold io_bind at 1, polytope_shape at 1, ok.
      destruct (randint 0 240 3 (np_random w0)) as [ns g].
      unfold io_bind at 1.
      destruct (io_mapM _ ps _) as [e | [ss' w2]] eqn:E; [discriminate |].
      unfold io_ret, ok; intros E'; inversion E'; subst.
      apply IH in E; exact E. }
  destruct (io_mapM _ polytopes w) as [e | [ss w1]] eqn:E; [discriminate |].
  intros H; inversion H; subst; cbn [plotted].
  split; [reflexivity |].
  rewrite (Hshapes _ _ _ _ E); eauto.
Qed.

(** C10.  Omitting the rendering flag is passing [True].  A call that omits
    it hands the records to [plot_polytopes] and returns what that returns,
    which is [None] and never the records; a call with the flag [False]
    returns the list of records and leaves the world alone. *)
Theorem rendering_flag_default (initial_location : list vec) (flow : matrix)
        (bloating : list vec) (step_size : option scalar)
        (w : world scalar rng_state) :
  approx initial_location flow bloating step_size None w
  = approx initial_location flow bloating step_size (Some true) w /\
  (forall recs w',
      approx initial_location flow bloating step_size (Some false) w
      = inr (PyList recs, w') ->
      approx initial_location flow bloating step_size None w
      = plot_polytopes recs w) /\
  (forall r w',
      approx initial_location flow bloating step_size None w = inr (r, w') ->
      r = PyNone /\ exists fig, plotted w' = plotted w ++ [fig]) /\
  (forall r w',
      approx initial_location flow bloating step_size (Some false) w
      = inr (r, w') ->
      w' = w /\ exists recs, r = PyList recs).
Proof.
  split; [reflexivity |].
  split; [| split].
  - intros recs w' H.
    apply approx_returns_data in H as (M & fp & sums & HM & Hfp & Hs & Hr & _).
    rewrite approx_unfold, HM, Hfp, Hs, Hr; reflexivity.
  - intros r w'; rewrite approx_unfold; cbn [default].
    destruct (expm _) as [e | M]; [discriminate |].
    destruct (mapM _ initial_location) as [e | fp]; [discriminate |].
    destruct (bloated fp bloating) as [e | sums]; [discriminate |].
    destruct (mapM reduce_polytope _) as [e | ps]; [discriminate |].
    apply plot_polytopes_returns.
  - intros r w'; rewrite approx_unfold; cbn [default].
    destruct (expm _) as [e | M]; [discriminate |].
    destruct (mapM _ initial_location) as [e | fp]; [discriminate |].
    destruct (bloated fp bloating) as [e | sums]; [discriminate |].
    destruct (mapM reduce_polytope _) as [e | ps]; [discriminate |].
    intros H; inversion H; subst; split; [reflexivity | eauto].
Qed.

(** ** Stages of a call and their shapes *)

Lemma matmul_ok (m : matrix) (v p : vec) :
  matmul m v = inr p -> length v = ncols m /\ length p = length m.
Proof.
  unfold Flowp.matmul.
  destruct (length v =? ncols m) eqn:E; [| discriminate].
  intros H; inversion H; subst.
  split; [now apply Nat.eqb_eq | apply length_map].
Qed.

Lemma Forall2_In_r {A B} (R : A -> B -> Prop) (l : list A) (l' : list B)
      (y : B) :
  Forall2 R l l' -> In y l' -> exists x, In x l /\ R x y.
Proof.
  induction 1 as [| a b l l' Hab _ IH]; [contradiction |].
  intros [<- | Hy].
  - exists a; split; [left; reflexivity | exact Hab].
  - destruct (IH Hy) as (x & Hx & Hxy).
    exists x; split; [right; exact Hx | exact Hxy].
Qed.

(** X2. The propagation keeps the number of points and fixes their sizes: a
    call that returns its records multiplied every point of the initial
    region by the same matrix, so each of them has as many entries as that
    matrix has columns, and each propagated point as many as it has rows. *)
Theorem propagation_shape (initial_location : list vec) (flow : matrix)
        (bloating : list vec) (step_size : option scalar)
        (w w' : world scalar rng_state) (recs : list polytope) :
  approx initial_location flow bloating step_size (Some false) w
  = inr (PyList recs, w') ->
  exists matrix_exp flowpipe,
    expm (scale (default one step_size) flow) = inr matrix_exp /\
    mapM (fun v => matmul matrix_exp v) initial_location = inr flowpipe /\
    length flowpipe = length initial_location /\
    Forall (fun v => length v = ncols matrix_exp) initial_location /\
    Forall (fun p => length p = length matrix_exp) flowpipe.
Proof.
  intros H.
  apply approx_returns_data in H as (M & fp & sums & HM & Hfp & _ & _ & _).
  exists M, fp.
  split; [exact HM |].
  split; [exact Hfp |].
  split; [eapply mapM_ok_length; exact Hfp |].
  apply mapM_ok_Forall2 in Hfp.
  clear HM; induction Hfp as [| v p vs ps Hvp _ [IH1 IH2]];
    [split; constructor |].
  apply matmul_ok in Hvp as [Hv Hp].
  split; constructor; assumption.
Qed.

(** X3. Where the vertices come from. Under scipy's contract that the
    attribute [points] of a hull holds the input points, every vertex of the
    propagated record is the product of the matrix exponential with a point
    of the initial region, and every vertex of the enclosure is a point of
    the initial region, or a sum of a propagated point and a bloating point,
    or (without a bloating region) a propagated point. *)
Theorem vertex_provenance (initial_location : list vec) (flow : matrix)
        (bloating : list vec) (step_size : option scalar)
        (w w' : world scalar rng_state) (recs : list polytope) :
  (forall pts conv_hull,
      ConvexHull pts = inr conv_hull -> hull_points conv_hull = pts) ->
  approx initial_location flow bloating step_size (Some false) w
  = inr (PyList recs, w') ->
  exists matrix_exp flowpipe v1 v2,
    expm (scale (default one step_size) flow) = inr matrix_exp /\
    mapM (fun v => matmul matrix_exp v) initial_location = inr flowpipe /\
    nth_error recs 1 = Some (Polytope "mat_exp(flow) * I" v1) /\
    nth_error recs 2
    = Some (Polytope
              "Omega_1: convHull(mink_sum(mat_exp(flow) * I, bloat), I)" v2) /\
    (forall p, In p v1 ->
               exists v, In v initial_location /\
                         matmul matrix_exp v = inr p) /\
    (forall s, In s v2 ->
               In s initial_location
               \/ (bloating = [] /\ In s flowpipe)
               \/ (exists p b, In p flowpipe /\ In b bloating /\
                               np_add p b = inr s)).
Proof.
  intros Hpoints H.
  apply approx_returns_data in H as (M & fp & sums & HM & Hfp & Hs & Hrecs & _).
  assert (Hprop : forall vs, hull_reduce fp = inr vs ->
            forall p, In p vs ->
              exists v, In v initial_location /\ matmul M v = inr p).
  { intros vs Hvs p Hp.
    assert (Hin : In p fp) by (eapply hull_reduce_incl; eassumption).
    apply mapM_ok_Forall2 in Hfp.
    destruct (@Forall2_In_r _ _ _ _ _ _ Hfp Hin) as (v & Hv & E).
    exists v; split; assumption. }
  assert (Hencl : forall vs, hull_reduce (sums ++ initial_location) = inr vs ->
            forall s, In s vs ->
              In s initial_location
              \/ (bloating = [] /\ In s fp)
              \/ (exists p b, In p fp /\ In b bloating /\ np_add p b = inr s)).
  { intros vs Hvs s Hs'.
    assert (Hin : In s (sums ++ initial_location))
      by (eapply hull_reduce_incl; eassumption).
    apply in_app_or in Hin as [Hin | Hin]; [| left; exact Hin].
    right; unfold Flowp.bloated in Hs.
    destruct bloating as [| b bl]; cbn [truthy] in Hs.
    - inversion Hs; subst sums; left; split; [reflexivity | exact Hin].
    - right; apply mapM_ok_Forall2 in Hs.
      destruct (@Forall2_In_r _ _ _ _ _ _ Hs Hin) as ([p b'] & Hpb & Hadd).
      apply in_prod_iff in Hpb as [Hp Hb].
      exists p, b'; auto. }
  apply candidates_reduced in Hrecs
    as (v0 & v1 & v2 & _ & H1 & H2 & [(_ & ->) | (_ & v3 & _ & ->)]);
    exists M, fp, v1, v2;
    (split; [exact HM |]);
    (split; [exact Hfp |]);
    (split; [reflexivity |]);
    (split; [reflexivity |]);
    (split; [exact (Hprop _ H1) | exact (Hencl _ H2)]).
Qed.

(** ** The bloating sums *)

Lemma broadcast_raises (op : scalar -> scalar -> scalar) (u v : vec)
      (e : exn) :
  broadcast op u v = inl e -> e = ValueError.
Proof.
  unfold Flowp.broadcast.
  destruct (length u =? length v); [discriminate |].
  destruct u as [| a [| a' u]]; destruct v as [| b [| b' v]];
    try discriminate; intros H; inversion H; reflexivity.
Qed.

Lemma broadcast_mismatch (op : scalar -> scalar -> scalar) (u v : vec) :
  length u <> length v -> length u <> 1 -> length v <> 1 ->
  broadcast op u v = inl ValueError.
Proof.
  intros Huv Hu Hv; unfold Flowp.broadcast.
  apply Nat.eqb_neq in Huv; rewrite Huv.
  destruct u as [| a [| a' u]]; destruct v as [| b [| b' v]];
    try reflexivity; simpl in Hu, Hv; congruence.
Qed.


Lemma mapM_some_raise {A B} (f : A -> result B) (l : list A) (e0 : exn) :
  (forall a e, f a = inl e -> e = e0) ->
  (exists a, In a l /\ f a = inl e0) ->
  mapM f l = inl e0.
Proof.
  intros Honly; induction l as [| a l IH]; intros (x & Hin & Hx);
    [contradiction |].
  simpl.
  destruct (f a) as [e | b] eqn:E; simpl.
  - rewrite (Honly _ _ E); reflexivity.
  - rewrite IH; [reflexivity |].
    destruct Hin as [-> | Hin]; [congruence | eauto].
Qed.


(** X4. A bloating point and a propagated point of different sizes, neither
    of size one, make the sum raise ValueError: the call raises it for every
    rendering flag and every world, before any hull is computed. *)
Theorem bloating_mismatch_raises (initial_location : list vec)
        (flow : matrix) (bloating : list vec) (step_size : option scalar)
        (matrix_exp : matrix) (flowpipe : list vec) :
  expm (scale (default one step_size) flow) = inr matrix_exp ->
  mapM (fun v => matmul matrix_exp v) initial_location = inr flowpipe ->
  (exists p b, In p flowpipe /\ In b bloating /\
               length p <> length b /\ length p <> 1 /\ length b <> 1) ->
  bloated flowpipe bloating = inl ValueError /\
  forall plot w,
    approx initial_location flow bloating step_size plot w = inl ValueError.
Proof.
  intros HM Hfp (p & b & Hp & Hb & Hpb & Hp1 & Hb1).
  assert (Hs : bloated flowpipe bloating = inl ValueError).
  { unfold Flowp.bloated.
    destruct bloating as [| b0 bl]; [contradiction |]; cbn [truthy].
    apply mapM_some_raise.
    - intros [v1 v2] e; apply broadcast_raises.
    - exists (p, b); split; [apply in_prod; assumption |].
      apply broadcast_mismatch; assumption. }
  split; [exact Hs |].
  intros plot w; rewrite approx_unfold, HM, Hfp, Hs; reflexivity.
Qed.


(** ** Errors and the rendering flag *)

(** X6. The computation comes before the rendering: an exception raised by a
    call with the flag off is raised by the call with any flag, in any world.
    *)
Theorem approx_error_any_flag (initial_location : list vec) (flow : matrix)
        (bloating : list vec) (step_size : option scalar)
        (w : world scalar rng_state) (e : exn) :
  approx initial_location flow bloating step_size (Some false) w = inl e ->
  forall plot w',
    approx initial_location flow bloating step_size plot w' = inl e.
Proof.
  intros H plot w'; rewrite approx_unfold in *; cbn [default] in H.
  destruct (expm _) as [e1 | M]; [exact H |].
  destruct (mapM _ initial_location) as [e2 | fp]; [exact H |].
  destruct (bloated fp bloating) as [e3 | sums]; [exact H |].
  destruct (mapM reduce_polytope _) as [e4 | ps]; [exact H | discriminate H].
Qed.

(** ** The figure *)

Local Abbreviation label_center := (label_center zero tenth ssub).
Local Abbreviation polytope_shape := (polytope_shape randint str).
Local Abbreviation plot_path := (_plot_path str).
Local Abbreviation np_sub := (np_sub ssub).

Lemma shapes_run (ps : list polytope) (w : world scalar rng_state) :
  exists ss w1,
    io_mapM polytope_shape ps w = inr (ss, w1) /\
    plotted w1 = plotted w /\
    Forall2 (fun p s => sh_type s = "path"%string /\
                        sh_path s = plot_path (vertices p)) ps ss.
Proof.
  revert w; induction ps as [| p ps IH]; intros w; simpl.
  - exists [], w; repeat split; constructor.
  - unfold io_bind at 1, Flowp.polytope_shape at 1, ok.
    destruct (randint 0 240 3 (np_random w)) as [ns g].
    unfold io_bind at 1.
    destruct (IH (World g (plotted w))) as (ss & w1 & E & Hw & HF).
    rewrite E; unfold io_ret, ok.
    do 2 eexists; split; [reflexivity |].
    split; [exact Hw |].
    constructor; [split; reflexivity | exact HF].
Qed.

Lemma plot_polytopes_unfold (ps : list polytope)
      (w : world scalar rng_state) :
  plot_polytopes ps w =
  match mapM label_center ps with
  | inl e => inl e
  | inr centers =>
    match io_mapM polytope_shape ps w with
    | inl e => inl e
    | inr (ss, w1) =>
        inr (PyNone,
             World (np_random w1)
                   (plotted w1
                    ++ [Figure
                          [Scatter (map (fun c => nth 0 c zero) centers)
                                   (map (fun c => nth 1 c zero) centers)
                                   (map name ps) "text"]
                          (Layout ss (Axis "rgba(0, 0, 0, 0.15)")
                                     (Axis "rgba(0, 0, 0, 0.15)"))]))
    end
  end.
Proof.
  unfold Flowp.plot_polytopes, io_bind, lift, io_ret, plot_figure, ok.
  destruct (mapM _ ps) as [e | centers]; [reflexivity |].
  destruct (io_mapM _ ps w) as [e | [ss w1]]; reflexivity.
Qed.

Lemma label_center_ok (p : polytope) (c : vec) :
  label_center p = inr c ->
  exists first rest,
    vertices p = first :: rest /\ np_sub first [zero; tenth] = inr c.
Proof.
  unfold Flowp.label_center, np_array.
  destruct (vertices p) as [| first rest]; [discriminate |].
  destruct (forallb _ _); [| discriminate].
  intros H; exists first, rest; split; [reflexivity | exact H].
Qed.


Lemma label_center_planar (p : polytope) (x y : scalar) (rest : list vec) :
  vertices p = [x; y] :: rest ->
  (forall v, In v rest -> length v = 2) ->
  label_center p = inr [ssub x zero; ssub y tenth].
Proof.
  intros E Hrest; unfold Flowp.label_center, np_array; rewrite E.
  replace (forallb _ _) with true; [reflexivity |].
  symmetry; apply forallb_forall.
  intros v [<- | Hv]; [reflexivity |].
  apply Nat.eqb_eq; exact (Hrest v Hv).
Qed.

Lemma label_center_not_planar (p : polytope) (first : vec)
      (rest : list vec) :
  vertices p = first :: rest ->
  (forall v, In v rest -> length v = length first) ->
  length first <> 1 -> length first <> 2 ->
  label_center p = inl ValueError.
Proof.
  intros E Hrest H1 H2; unfold Flowp.label_center, np_array; rewrite E.
  replace (forallb _ _) with true.
  - cbn [bind getitem nth_error ok].
    apply broadcast_mismatch; simpl; congruence.
  - symmetry; apply forallb_forall.
    intros v [<- | Hv]; apply Nat.eqb_eq; [reflexivity | exact (Hrest v Hv)].
Qed.

Lemma label_centers_planar (polytopes : list polytope) :
  (forall p, In p polytopes ->
             vertices p <> [] /\
             forall v, In v (vertices p) -> length v = 2) ->
  mapM label_center polytopes
  = inr (map (fun p => [ssub (nth 0 (hd [] (vertices p)) zero) zero;
                        ssub (nth 1 (hd [] (vertices p)) zero) tenth])
             polytopes).
Proof.
  intros Hplanar.
  induction polytopes as [| p ps IH]; [reflexivity |].
  destruct (Hplanar p (or_introl eq_refl)) as [Hne Hlen].
  destruct (vertices p) as [| first rest] eqn:Ev; [contradiction |].
  destruct first as [| x [| y [| z first]]];
    try (specialize (Hlen _ (or_introl eq_refl)); discriminate Hlen).
  simpl; rewrite (label_center_planar p Ev);
    [| intros v Hv; apply Hlen; right; exact Hv].
  simpl; rewrite IH; [rewrite Ev; reflexivity |].
  intros q Hq; apply Hplanar; right; exact Hq.
Qed.

(** X7. What a successful rendering hands to plotly: one more figure, after
    those plotted before, with a single text trace that carries the names of
    the records in order and one position for each, and with one shape for
    each record, in order: a path built from the vertices of the record. No
    shape has the path [None]: a record without vertices makes the labelling
    fail before any shape is built. *)
Theorem plot_polytopes_figure (polytopes : list polytope)
        (w w' : world scalar rng_state) (r : retval scalar) :
  plot_polytopes polytopes w = inr (r, w') ->
  r = PyNone /\
  exists trace shp zerolines,
    plotted w'
    = plotted w ++ [Figure [trace] (Layout shp zerolines zerolines)] /\
    sc_mode trace = "text"%string /\
    sc_text trace = map name polytopes /\
    length (sc_x trace) = length polytopes /\
    length (sc_y trace) = length polytopes /\
    Forall2 (fun p s => sh_type s = "path"%string /\
                        sh_path s = plot_path (vertices p) /\
                        sh_path s <> None)
            polytopes shp.
Proof.
  rewrite plot_polytopes_unfold.
  destruct (mapM label_center polytopes) as [e | centers] eqn:Hc;
    [discriminate |].
  destruct (shapes_run polytopes w) as (ss & w1 & E & Hw & HF).
  rewrite E; intros H; inversion H; subst; clear H.
  split; [reflexivity |].
  eexists; exists ss; eexists.
  split; [cbn [plotted]; rewrite Hw; reflexivity |].
  cbn [sc_mode sc_text sc_x sc_y].
  split; [reflexivity |].
  split; [reflexivity |].
  pose proof (mapM_ok_length _ _ Hc) as Hlen.
  split; [rewrite length_map; exact Hlen |].
  split; [rewrite length_map; exact Hlen |].
  apply mapM_ok_Forall2 in Hc.
  clear E Hlen; revert centers Hc.
  induction HF as [| p s ps ss' (Ht & Hp) _ IH]; intros centers Hc;
    [constructor |].
  inversion Hc as [| p' c ps' cs Hpc Hrest]; subst.
  constructor; [| eapply IH; exact Hrest].
  split; [exact Ht |].
  split; [exact Hp |].
  rewrite Hp.
  apply label_center_ok in Hpc as (first & rest & Ev & _).
  rewrite Ev; discriminate.
Qed.

(** X8. Records of the plane are rendered: when every record has a first
    vertex, and all its vertices have two coordinates, the rendering succeeds
    and puts the label of each record at its first vertex, moved by [0] along
    the first axis and by [0.1] down the second. *)
Theorem plot_polytopes_planar (polytopes : list polytope)
        (w : world scalar rng_state) :
  (forall p, In p polytopes ->
             vertices p <> [] /\
             forall v, In v (vertices p) -> length v = 2) ->
  exists w' trace lay,
    plot_polytopes polytopes w = inr (PyNone, w') /\
    plotted w' = plotted w ++ [Figure [trace] lay] /\
    sc_x trace
    = map (fun p => ssub (nth 0 (hd [] (vertices p)) zero) zero) polytopes /\
    sc_y trace
    = map (fun p => ssub (nth 1 (hd [] (vertices p)) zero) tenth) polytopes.
Proof.
  intros Hplanar.
  pose proof (label_centers_planar polytopes Hplanar) as Hc.
  rewrite plot_polytopes_unfold, Hc.
  destruct (shapes_run polytopes w) as (ss & w1 & E & Hw & _).
  rewrite E.
  do 3 eexists; split; [reflexivity |].
  split; [cbn [plotted]; rewrite Hw; reflexivity |].
  cbn [sc_x sc_y]; rewrite !map_map; split; reflexivity.
Qed.


(** X10. The rendering is for the plane only: a record whose vertices have
    one number of coordinates, neither one nor two, makes the label position,
    the first vertex minus [[0, 0.1]], raise ValueError when the rendering
    reaches it. *)
Theorem plot_polytopes_not_planar (pre post : list polytope)
        (c : polytope) (first : vec) (rest : list vec)
        (w : world scalar rng_state) :
  (forall p, In p pre -> exists xy, label_center p = inr xy) ->
  vertices c = first :: rest ->
  (forall v, In v rest -> length v = length first) ->
  length first <> 1 -> length first <> 2 ->
  plot_polytopes (pre ++ c :: post) w = inl ValueError.
Proof.
  intros Hpre Hc Hrest H1 H2.
  rewrite plot_polytopes_unfold.
  rewrite (mapM_first_raise label_center pre post c (e := ValueError));
    [reflexivity | exact Hpre | eapply label_center_not_planar; eassumption].
Qed.

(** X11. A call that omits the rendering flag and returns has plotted the
    records that the call with the flag off returns: the figure has their
    names, in order, as the texts of its trace, and one shape for each. *)
Theorem approx_plots_its_records (initial_location : list vec)
        (flow : matrix) (bloating : list vec) (step_size : option scalar)
        (w w' : world scalar rng_state) (r : retval scalar) :
  approx initial_location flow bloating step_size None w = inr (r, w') ->
  exists recs trace shp zerolines,
    approx initial_location flow bloating step_size (Some false) w
    = inr (PyList recs, w) /\
    plotted w'
    = plotted w ++ [Figure [trace] (Layout shp zerolines zerolines)] /\
    sc_text trace = map name recs /\
    Forall2 (fun p s => sh_path s = plot_path (vertices p)) recs shp.
Proof.
  rewrite !approx_unfold; cbn [default].
  destruct (expm _) as [e | M]; [discriminate |].
  destruct (mapM _ initial_location) as [e | fp]; [discriminate |].
  destruct (bloated fp bloating) as [e | sums]; [discriminate |].
  destruct (mapM reduce_polytope _) as [e | ps]; [discriminate |].
  rewrite plot_polytopes_unfold.
  destruct (mapM label_center ps) as [e | centers]; [discriminate |].
  destruct (shapes_run ps w) as (ss & w1 & E & Hw & HF).
  rewrite E; intros H; inversion H; subst; clear H.
  exists ps; eexists; exists ss; eexists.
  split; [reflexivity |].
  split; [cbn [plotted]; rewrite Hw; reflexivity |].
  split; [reflexivity |].
  eapply Forall2_impl; [| exact HF].
  intros p s [_ Hp]; exact Hp.
Qed.


(** ** Rendering a planar problem *)

Lemma broadcast_same (op : scalar -> scalar -> scalar) (u v s : vec) :
  length u = length v -> broadcast op u v = inr s -> length s = length u.
Proof.
  intros E; unfold Flowp.broadcast.
  apply Nat.eqb_eq in E as E'; rewrite E'.
  intros H; inversion H; subst.
  rewrite length_map, length_combine, <- E; apply Nat.min_id.
Qed.

Lemma hull_reduce_nonempty (pts vs : list vec) :
  (forall pts conv_hull,
      ConvexHull pts = inr conv_hull -> hull_vertices conv_hull <> []) ->
  hull_reduce pts = inr vs -> vs <> [].
Proof.
  intros Hvert H E; subst vs.
  apply hull_reduce_ok in H as (h & Hh & HF).
  apply (Hvert _ _ Hh).
  inversion HF; reflexivity.
Qed.

(** X12. Under scipy's contract that a hull keeps the input in [points] and
    has at least one vertex: when the initial and the bloating points have
    two coordinates and the matrix exponential two rows, a call that returns
    its records with the flag off also goes through with the flag omitted:
    the rendering cannot fail, [None] is returned and one figure is plotted,
    with one shape for each record. *)
Theorem planar_call_renders (initial_location : list vec) (flow : matrix)
        (bloating : list vec) (step_size : option scalar)
        (matrix_exp : matrix) (w w0 : world scalar rng_state)
        (recs : list polytope) :
  (forall pts conv_hull,
      ConvexHull pts = inr conv_hull -> hull_points conv_hull = pts) ->
  (forall pts conv_hull,
      ConvexHull pts = inr conv_hull -> hull_vertices conv_hull <> []) ->
  expm (scale (default one step_size) flow) = inr matrix_exp ->
  length matrix_exp = 2 ->
  Forall (fun v => length v = 2) initial_location ->
  Forall (fun b => length b = 2) bloating ->
  approx initial_location flow bloating step_size (Some false) w
  = inr (PyList recs, w0) ->
  exists w' fig,
    approx initial_location flow bloating step_size None w
    = inr (PyNone, w') /\
    plotted w' = plotted w ++ [fig] /\
    length (shapes (fig_layout fig)) = length recs.
Proof.
  intros Hpoints Hvert HM Hrows Hinit Hbloat H.
  apply approx_returns_data in H
    as (M & fp & sums & HM' & Hfp & Hs & Hrecs & _).
  rewrite HM in HM'; inversion HM'; subst M; clear HM'.
  rewrite Forall_forall in Hinit, Hbloat.
  assert (Hfp2 : forall p, In p fp -> length p = 2).
  { intros p Hp.
    pose proof Hfp as HF; apply mapM_ok_Forall2 in HF.
    destruct (@Forall2_In_r _ _ _ _ _ _ HF Hp) as (v & _ & Hv).
    apply matmul_ok in Hv as [_ Hv]; congruence. }
  assert (Hsums2 : forall s, In s sums -> length s = 2).
  { intros s Hin; pose proof Hs as Hs'; unfold Flowp.bloated in Hs'.
    destruct bloating as [| b bl]; cbn [truthy] in Hs'.
    - inversion Hs'; subst sums; exact (Hfp2 s Hin).
    - apply mapM_ok_Forall2 in Hs'.
      destruct (@Forall2_In_r _ _ _ _ _ _ Hs' Hin) as ([p b'] & Hpb & Hadd).
      apply in_prod_iff in Hpb as [Hp Hb].
      apply broadcast_same in Hadd;
        rewrite (Hfp2 p Hp) in *; [exact Hadd |].
      symmetry; exact (Hbloat b' Hb). }
  assert (Hcand : forall c,
             In c (candidates initial_location fp sums bloating) ->
             forall v, In v (vertices c) -> length v = 2).
  { unfold candidates; intros c Hc v Hv.
    apply in_app_or in Hc as [[<- | [<- | [<- | []]]] | Hc];
      cbn [vertices] in Hv.
    - exact (Hinit v Hv).
    - exact (Hfp2 v Hv).
    - apply in_app_or in Hv as [Hv | Hv]; [exact (Hsums2 v Hv) |].
      exact (Hinit v Hv).
    - destruct (truthy bloating); [| contradiction].
      destruct Hc as [<- | []]; exact (Hbloat v Hv). }
  assert (Hplanar : forall r, In r recs ->
             vertices r <> [] /\
             forall v, In v (vertices r) -> length v = 2).
  { intros r Hr; pose proof Hrecs as HF; apply mapM_reduce_ok in HF.
    destruct (@Forall2_In_r _ _ _ _ _ _ HF Hr) as (c & Hc & vs & Hvs & ->).
    cbn [vertices]; split; [eapply hull_reduce_nonempty; eassumption |].
    intros v Hv; apply (Hcand c Hc).
    eapply hull_reduce_incl; eassumption. }
  rewrite approx_unfold, HM, Hfp, Hs, Hrecs; cbn [default].
  rewrite plot_polytopes_unfold, (label_centers_planar recs Hplanar).
  destruct (shapes_run recs w) as (ss & w1 & E & Hw & HF).
  rewrite E.
  do 2 eexists; split; [reflexivity |].
  split; [cbn [plotted]; rewrite Hw; reflexivity |].
  cbn [fig_layout shapes]; symmetry; exact (Forall2_length HF).
Qed.

End Theory.

(** * The exact instance at work *)

(** ** Facts about the exact routines *)

Lemma Qc_eq_bool_iff (x y : Qc) : Qc_eq_bool x y = true <-> x = y.
Proof.
  split; [apply Qc_eq_bool_correct |].
  intros ->; unfold Qc_eq_bool.
  destruct (Qc_eq_dec y y) as [_ | N]; [reflexivity | now destruct N].
Qed.

Lemma ConvexHull_exact_points (pts : list Qvec) (h : hull Qc) :
  ConvexHull_exact pts = inr h -> hull_points h = pts.
Proof.
  unfold ConvexHull_exact.
  destruct pts as [| p pts]; [discriminate |].
  destruct (negb _); [discriminate |].
  destruct (collinear_b _); [discriminate |].
  intros H; inversion H; reflexivity.
Qed.

Lemma collinear_b_iff (pts : list Qvec) :
  collinear_b pts = true <-> collinear 0%Qc Qcminus Qcmult pts.
Proof.
  unfold collinear_b, collinear; split.
  - intros H p q r Hp Hq Hr.
    rewrite forallb_forall in H; specialize (H p Hp).
    rewrite forallb_forall in H; specialize (H q Hq).
    rewrite forallb_forall in H; specialize (H r Hr).
    apply Qc_eq_bool_iff in H; exact H.
  - intros H.
    apply forallb_forall; intros p Hp.
    apply forallb_forall; intros q Hq.
    apply forallb_forall; intros r Hr.
    apply Qc_eq_bool_iff, H; assumption.
Qed.

Lemma Qcross_repeat (p q : Qvec) :
  Qcross p p q = 0%Qc /\ Qcross p q p = 0%Qc /\ Qcross p q q = 0%Qc.
Proof.
  unfold Qcross, cross; repeat split; ring.
Qed.

Lemma few_points_collinear (pts : list Qvec) :
  length pts < 3 -> collinear 0%Qc Qcminus Qcmult pts.
Proof.
  intros Hlen p q r Hp Hq Hr.
  assert (Heq : p = q \/ p = r \/ q = r).
  { destruct pts as [| a [| b [| c pts]]]; simpl in *; try lia;
      intuition (subst; auto). }
  destruct Heq as [-> | [-> | ->]]; apply Qcross_repeat.
Qed.

Lemma ConvexHull_exact_degenerate (pts : list Qvec) :
  degenerate 0%Qc Qcminus Qcmult pts ->
  exists e, ConvexHull_exact pts = inl e.
Proof.
  intros Hdeg.
  assert (Hcol : collinear_b pts = true).
  { apply collinear_b_iff.
    destruct Hdeg as [_ [Hlen | Hcol]];
      [apply few_points_collinear |]; assumption. }
  unfold ConvexHull_exact.
  destruct pts as [| p pts]; [eexists; reflexivity |].
  destruct (negb _); [eexists; reflexivity |].
  rewrite Hcol; eexists; reflexivity.
Qed.

Lemma expm_exact_ncols (a m : Qmatrix) :
  expm_exact a = inr m -> ncols m = ncols a.
Proof.
  unfold expm_exact.
  destruct (is_square a) eqn:Hsq; [| discriminate]; cbn [negb].
  destruct (is_zero_matrix _); [| discriminate].
  intros H; inversion H; subst m; clear H.
  destruct a as [| row a]; [reflexivity |].
  unfold is_square in Hsq; cbn [forallb] in Hsq.
  apply andb_prop in Hsq as [Hrow _]; apply Nat.eqb_eq in Hrow.
  unfold identity, mat_add; cbn [length seq map combine ncols].
  rewrite length_map, length_combine.
  unfold unit_row; rewrite length_map, length_seq.
  cbn [length] in Hrow; lia.
Qed.

(** ** Rational arithmetic through the reals *)

Lemma QcR_Q2Qc (q : Q) : QcR (Q2Qc q) = Q2R q.
Proof. unfold QcR, Q2Qc, this. apply Qeq_eqR, Qred_correct. Qed.

Lemma QcR_plus (x y : Qc) : QcR (x + y)%Qc = (QcR x + QcR y)%R.
Proof. unfold Qcplus. rewrite QcR_Q2Qc. apply Q2R_plus. Qed.

Lemma QcR_mult (x y : Qc) : QcR (x * y)%Qc = (QcR x * QcR y)%R.
Proof. unfold Qcmult. rewrite QcR_Q2Qc. apply Q2R_mult. Qed.

Lemma QcR_opp (x : Qc) : QcR (- x)%Qc = (- QcR x)%R.
Proof. unfold Qcopp. rewrite QcR_Q2Qc. apply Q2R_opp. Qed.

Lemma QcR_minus (x y : Qc) : QcR (x - y)%Qc = (QcR x - QcR y)%R.
Proof. unfold Qcminus. rewrite QcR_plus, QcR_opp. reflexivity. Qed.

Lemma QcR_0 : QcR 0%Qc = 0%R.
Proof. rewrite QcR_Q2Qc. unfold Q2R. simpl. lra. Qed.

Lemma QcR_1 : QcR 1%Qc = 1%R.
Proof. rewrite QcR_Q2Qc. unfold Q2R. simpl. lra. Qed.

Lemma QcR_lt (x y : Qc) : (x < y)%Qc <-> (QcR x < QcR y)%R.
Proof. split; [apply Qlt_Rlt | apply Rlt_Qlt]. Qed.

Lemma QcR_le (x y : Qc) : (x <= y)%Qc <-> (QcR x <= QcR y)%R.
Proof. split; [apply Qle_Rle | apply Rle_Qle]. Qed.

Lemma QcR_eq (x y : Qc) : x = y <-> QcR x = QcR y.
Proof.
  split; [intros ->; reflexivity |].
  intros H; apply Qc_is_canon, eqR_Qeq, H.
Qed.

Create Rewrite HintDb qcr.
#[local] Hint Rewrite QcR_minus QcR_plus QcR_mult QcR_opp QcR_0 QcR_1 : qcr.

Ltac to_R :=
  repeat match goal with
         | H : context [(_ < _)%Qc] |- _ => rewrite QcR_lt in H
         | H : context [(_ <= _)%Qc] |- _ => rewrite QcR_le in H
         | H : context [@eq Qc _ _] |- _ => rewrite QcR_eq in H
         | |- context [(_ < _)%Qc] => rewrite QcR_lt
         | |- context [(_ <= _)%Qc] => rewrite QcR_le
         | |- context [@eq Qc _ _] => rewrite QcR_eq
         end;
  autorewrite with qcr in *.

(** ** Sign lemmas on scalars *)

Lemma apart_sq_pos (a b c d : R) :
  ~ (a = c /\ b = d) ->
  (0 < (a - c) * (a - c) + (b - d) * (b - d))%R.
Proof.
  intros N.
  pose proof (Rle_0_sqr (a - c)) as Ha; pose proof (Rle_0_sqr (b - d)) as Hb.
  unfold Rsqr in Ha, Hb.
  destruct (Req_dec a c) as [Ea | Na].
  - destruct (Req_dec b d) as [Eb | Nb]; [exfalso; auto |].
    assert (0 < Rsqr (b - d))%R by (apply Rsqr_pos_lt; lra).
    unfold Rsqr in *; lra.
  - assert (0 < Rsqr (a - c))%R by (apply Rsqr_pos_lt; lra).
    unfold Rsqr in *; lra.
Qed.

Lemma R_key_trans (ca da cb db cc dc : R) :
  (0 <= ca -> 0 <= cb -> 0 <= cc ->
   0 < cb * cb + db * db ->
   (cb = 0 -> 0 <= db) -> (cc = 0 -> 0 <= dc) ->
   da * cb <= db * ca -> db * cc <= dc * cb -> da * cc <= dc * ca)%R.
Proof.
  intros Ha Hb Hc Qb Zb Zc Hab Hbc.
  destruct (Req_dec cb 0) as [E | N].
  - subst cb. specialize (Zb eq_refl).
    assert (0 < db)%R by nra.
    assert (cc = 0)%R by nra.
    subst cc. specialize (Zc eq_refl). nra.
  - assert (0 < cb)%R by lra.
    assert (H1 : (da * cb * cc <= db * ca * cc)%R)
      by (apply Rmult_le_compat_r; assumption).
    assert (H2 : (db * cc * ca <= dc * cb * ca)%R)
      by (apply Rmult_le_compat_r; assumption).
    assert (H3 : (cb * (da * cc) <= cb * (dc * ca))%R) by lra.
    apply Rmult_le_reg_l in H3; assumption.
Qed.

Lemma R_key_ahead (n x y cs ds cr dr : R) :
  (0 < n ->
   x * n = dr * cs - ds * cr ->
   y * n = ds * dr + cs * cr ->
   0 <= cs -> 0 <= cr ->
   0 < cs * cs + ds * ds ->
   (cs = 0 -> 0 <= ds) -> (cr = 0 -> 0 <= dr) ->
   ds * cr <= dr * cs ->
   0 < x \/ (x = 0 /\ 0 <= y))%R.
Proof.
  intros Hn Ex Ey Hs Hr Qs Zs Zr Hle.
  assert (Hx : (0 <= x * n)%R) by lra.
  destruct (Req_dec x 0) as [E | N].
  - right; split; [exact E |].
    subst x. assert (Eq : (dr * cs = ds * cr)%R) by lra.
    assert (Hy : (0 <= y * n)%R).
    { destruct (Req_dec cs 0) as [Ec | Nc].
      - subst cs. specialize (Zs eq_refl).
        assert (0 < ds)%R by nra.
        assert (cr = 0)%R by nra.
        subst cr. specialize (Zr eq_refl). nra.
      - assert (0 < cs)%R by lra.
        assert (E2 : (cs * (y * n) = cr * (cs * cs + ds * ds))%R).
        { rewrite Ey.
          replace (cs * (ds * dr + cs * cr))%R
            with (ds * (dr * cs) + cs * cs * cr)%R by ring.
          rewrite Eq; ring. }
        assert (0 <= cs * (y * n))%R by (rewrite E2; nra).
        nra. }
    nra.
  - left. nra.
Qed.

Lemma R_scaled_ahead (n k x y x' y' : R) :
  (0 < n -> 0 < k ->
   x' * n = k * x -> y' * n = k * y ->
   0 < x \/ (x = 0 /\ 0 <= y) ->
   0 < x' \/ (x' = 0 /\ 0 <= y'))%R.
Proof.
  intros Hn Hk Ex Ey [Hx | [Hx Hy]].
  - left. assert (0 < k * x)%R by (apply Rmult_lt_0_compat; assumption). nra.
  - right. subst x. split; [nra |].
    assert (0 <= k * y)%R by (apply Rmult_le_pos; lra). nra.
Qed.

Lemma R_between (n k y z : R) :
  (0 < n -> 0 < k -> z * n = k * (k - y) -> y <= k -> 0 <= z)%R.
Proof.
  intros Hn Hk Ez Hy.
  assert (0 <= k * (k - y))%R by (apply Rmult_le_pos; lra). nra.
Qed.

Lemma R_sum_sq_zero (a b : R) : (a * a + b * b = 0 -> a = 0 /\ b = 0)%R.
Proof. intros H; split; nra. Qed.

(** ** Comparisons *)

Lemma Qc_ltb_iff (x y : Qc) : Qc_ltb x y = true <-> (x < y)%Qc.
Proof.
  unfold Qc_ltb; rewrite Qclt_alt.
  destruct (x ?= y)%Qc; split; congruence.
Qed.

Lemma Qc_leb_iff (x y : Qc) : Qc_leb x y = true <-> (x <= y)%Qc.
Proof.
  unfold Qc_leb; rewrite Qcle_alt.
  destruct (x ?= y)%Qc; split; congruence.
Qed.

Lemma ahead_iff (p q r : Qvec) :
  ahead p q r = true <->
  (0 < Qcross p q r)%Qc \/ (Qcross p q r = 0%Qc /\ (0 <= along p q r)%Qc).
Proof.
  unfold ahead.
  rewrite orb_true_iff, andb_true_iff, Qc_ltb_iff, Qc_leb_iff, Qc_eq_bool_iff.
  reflexivity.
Qed.


(** ** Angular order around a point *)


Ltac scalars :=
  repeat match goal with
         | |- context [Qcross ?a ?b ?c] =>
             let x := fresh "c" in set (x := Qcross a b c) in *; clearbody x
         | H : context [Qcross ?a ?b ?c] |- _ =>
             let x := fresh "c" in set (x := Qcross a b c) in *; clearbody x
         | |- context [along ?a ?b ?c] =>
             let x := fresh "d" in set (x := along a b c) in *; clearbody x
         | H : context [along ?a ?b ?c] |- _ =>
             let x := fresh "d" in set (x := along a b c) in *; clearbody x
         | |- context [norm2 ?a ?b] =>
             let x := fresh "n" in set (x := norm2 a b) in *; clearbody x
         | H : context [norm2 ?a ?b] |- _ =>
             let x := fresh "n" in set (x := norm2 a b) in *; clearbody x
         end.

Ltac coords := unfold norm2, Qcross, cross, along.

Lemma lagrange_cross (o t s r : Qvec) :
  (norm2 o t * Qcross o s r
   = along o r t * Qcross o s t - along o s t * Qcross o r t)%Qc.
Proof. coords; ring. Qed.

Lemma lagrange_along (o t s r : Qvec) :
  (norm2 o t * along o s r
   = along o s t * along o r t + Qcross o s t * Qcross o r t)%Qc.
Proof. coords; ring. Qed.

Lemma norm_split (o b t : Qvec) :
  (Qcross o b t * Qcross o b t + along o b t * along o b t
   = norm2 o b * norm2 o t)%Qc.
Proof. coords; ring. Qed.

Lemma cross_cycle (p q r : Qvec) : Qcross q r p = Qcross p q r.
Proof. coords; ring. Qed.

Lemma cross_swap (p q r : Qvec) : Qcross p r q = (- Qcross p q r)%Qc.
Proof. coords; ring. Qed.

Lemma along_sym (p q r : Qvec) : along p q r = along p r q.
Proof. coords; ring. Qed.

Lemma same_place_dec (p q : Qvec) : {same_place p q} + {~ same_place p q}.
Proof.
  unfold same_place.
  destruct (Qc_eq_dec (xc 0%Qc p) (xc 0%Qc q));
    destruct (Qc_eq_dec (yc 0%Qc p) (yc 0%Qc q)); tauto.
Defined.

Lemma norm2_pos (p q : Qvec) : ~ same_place q p -> (0 < norm2 p q)%Qc.
Proof.
  unfold same_place; coords; intros N; to_R.
  pose proof (apart_sq_pos N); lra.
Qed.

Lemma norm2_zero (p q : Qvec) : norm2 p q = 0%Qc -> same_place q p.
Proof.
  unfold same_place; coords; intros H; to_R.
  apply R_sum_sq_zero in H; lra.
Qed.

Lemma cross_here (o s r : Qvec) :
  same_place r o -> Qcross o s r = 0%Qc /\ along o s r = 0%Qc.
Proof.
  unfold same_place; coords; intros [-> ->]; split; ring.
Qed.

Lemma ahead_here (o s r : Qvec) : same_place r o -> ahead o s r = true.
Proof.
  intros H; apply ahead_iff; right.
  destruct (cross_here s H) as [-> ->]; split; [reflexivity |].
  apply Qcle_refl.
Qed.

Lemma turn_le_trans (o t a b c : Qvec) :
  ~ same_place b o -> ~ same_place t o ->
  ahead o a t = true -> ahead o b t = true -> ahead o c t = true ->
  turn_le o t a b -> turn_le o t b c -> turn_le o t a c.
Proof.
  rewrite !ahead_iff; unfold turn_le.
  intros Nb Nt Ha Hb Hc Hab Hbc.
  pose proof (norm_split o b t) as Q.
  pose proof (norm2_pos Nb) as Pb; pose proof (norm2_pos Nt) as Pt.
  clear Nb Nt; scalars; to_R.
  pose proof (Rmult_lt_0_compat _ _ Pb Pt) as Pn.
  refine (R_key_trans _ _ _ _ _ _ Hab Hbc);
    try (destruct Ha as [? | [? ?]]; destruct Hb as [? | [? ?]];
         destruct Hc as [? | [? ?]]; lra).
Qed.

Lemma turn_le_ahead (o t s r : Qvec) :
  ~ same_place s o -> ~ same_place t o ->
  ahead o s t = true -> ahead o r t = true ->
  turn_le o t s r -> ahead o s r = true.
Proof.
  rewrite !ahead_iff; unfold turn_le.
  intros Ns Nt Hs Hr Hle.
  pose proof (lagrange_cross o t s r) as Ex.
  pose proof (lagrange_along o t s r) as Ey.
  pose proof (norm_split o s t) as Q.
  pose proof (norm2_pos Ns) as Ps; pose proof (norm2_pos Nt) as Pt.
  clear Ns Nt; scalars; to_R.
  pose proof (Rmult_lt_0_compat _ _ Ps Pt) as Pn.
  eapply R_key_ahead with (n := QcR n); [exact Pt | | | | | | | | exact Hle];
    try (destruct Hs as [? | [? ?]]; destruct Hr as [? | [? ?]]; lra).
Qed.

(** Among the points of [l] away from [o], all of them turned clockwise
    from the direction of [t] by less than half a turn, one is turned
    most. *)
Lemma best_turn (o t : Qvec) (l : list Qvec) :
  ~ same_place t o ->
  (forall r, In r l -> ahead o r t = true) ->
  (forall r, In r l -> same_place r o) \/
  (exists s, In s l /\ ~ same_place s o /\
             forall r, In r l -> ~ same_place r o -> turn_le o t s r).
Proof.
  intros Nt; induction l as [| x l IH]; intros H.
  - left; intros r [].
  - assert (Hl : forall r, In r l -> ahead o r t = true)
      by (intros r Hr; apply H; right; exact Hr).
    specialize (IH Hl).
    destruct (same_place_dec x o) as [Ex | Nx].
    + destruct IH as [IH | (s & Hs & Ns & IH)].
      * left; intros r [<- | Hr]; [exact Ex | apply IH; exact Hr].
      * right; exists s; split; [right; exact Hs |]; split; [exact Ns |].
        intros r [<- | Hr] Nr; [contradiction | apply IH; assumption].
    + right; destruct IH as [IH | (s & Hs & Ns & IH)].
      * exists x; split; [left; reflexivity |]; split; [exact Nx |].
        intros r [<- | Hr] Nr; [apply Qcle_refl |].
        exfalso; apply Nr, IH, Hr.
      * destruct (Qclt_le_dec (along o x t * Qcross o s t)
                              (along o s t * Qcross o x t)) as [Lt | Le].
        -- exists x; split; [left; reflexivity |]; split; [exact Nx |].
           intros r [<- | Hr] Nr; [apply Qcle_refl |].
           apply turn_le_trans with (b := s); try assumption.
           ++ apply H; left; reflexivity.
           ++ apply Hl; exact Hs.
           ++ apply Hl; exact Hr.
           ++ apply Qclt_le_weak; exact Lt.
           ++ apply IH; assumption.
        -- exists s; split; [right; exact Hs |]; split; [exact Ns |].
           intros r [<- | Hr] Nr; [exact Le | apply IH; assumption].
Qed.

(** A supporting line through [o]: given one direction [t] from which every
    point is turned clockwise by less than half a turn, some point [s] has
    every point on its left or ahead on its ray. *)
Lemma partner_exists (pts : list Qvec) (o t : Qvec) :
  ~ same_place t o ->
  (forall r, In r pts -> ahead o r t = true) ->
  (exists r, In r pts /\ ~ same_place r o) ->
  exists s, In s pts /\ ~ same_place s o /\
            forall r, In r pts -> ahead o s r = true.
Proof.
  intros Nt H (r0 & Hr0 & Nr0).
  destruct (best_turn pts Nt H) as [All | (s & Hs & Ns & Best)].
  - exfalso; apply Nr0, All, Hr0.
  - exists s; split; [exact Hs |]; split; [exact Ns |].
    intros r Hr.
    destruct (same_place_dec r o) as [Er | Nr].
    + apply ahead_here; exact Er.
    + apply turn_le_ahead with (t := t); try assumption.
      * apply H; exact Hs.
      * apply H; exact Hr.
      * apply Best; assumption.
Qed.

Lemma list_max (f : Qvec -> Qc) (l : list Qvec) :
  l <> [] -> exists m, In m l /\ forall r, In r l -> (f r <= f m)%Qc.
Proof.
  induction l as [| x l IH]; intros N; [contradiction |].
  destruct l as [| y l].
  - exists x; split; [left; reflexivity |].
    intros r [<- | []]; apply Qcle_refl.
  - destruct IH as (m & Hm & Max); [discriminate |].
    destruct (Qclt_le_dec (f m) (f x)) as [Lt | Le].
    + exists x; split; [left; reflexivity |].
      intros r [<- | Hr]; [apply Qcle_refl |].
      apply Qcle_trans with (f m); [apply Max; exact Hr |].
      apply Qclt_le_weak; exact Lt.
    + exists m; split; [right; exact Hm |].
      intros r [<- | Hr]; [exact Le | apply Max; exact Hr].
Qed.

Lemma R_zero_factor (k x : R) : (0 < k -> k * x = 0 -> x = 0)%R.
Proof. intros Hk H. nra. Qed.

Lemma lagrange_back (p q m r : Qvec) :
  (norm2 p q * along m r p
   = (along p q r - along p q m) * (- along p q m)
     + (Qcross p r q - Qcross p m q) * (- Qcross p m q))%Qc.
Proof. coords; ring. Qed.

(** Along a supporting ray from [p], the farthest point [m]: every point is
    on the left of the line from [p] to [m] or between the two, and seen
    from [m] every point is turned clockwise from [p] by less than half a
    turn. *)
Lemma far_end (pts : list Qvec) (p q : Qvec) :
  In q pts -> ~ same_place q p ->
  (forall r, In r pts -> ahead p q r = true) ->
  exists m, In m pts /\ ~ same_place m p /\
            (forall r, In r pts -> ahead p m r = true) /\
            (forall r, In r pts -> ahead m r p = true).
Proof.
  intros Hq Nq H.
  set (l := filter (fun r => Qc_eq_bool (Qcross p q r) 0%Qc) pts).
  assert (Hql : In q l).
  { apply filter_In; split; [exact Hq |].
    apply Qc_eq_bool_iff, Qcross_repeat. }
  destruct (list_max (along p q) (l := l)) as (m & Hm & Max).
  { intros E; rewrite E in Hql; contradiction. }
  pose proof (Max q Hql) as Hk; fold (norm2 p q) in Hk.
  apply filter_In in Hm as [Hm Cm]; apply Qc_eq_bool_iff in Cm.
  pose proof (norm2_pos Nq) as PN.
  assert (Pk : (0 < along p q m)%Qc) by (eapply Qclt_le_trans; eassumption).
  assert (Cm' : Qcross p m q = 0%Qc) by (rewrite cross_swap, Cm; ring).
  assert (Hahead : forall r, In r pts -> ahead p m r = true).
  { intros r Hr; specialize (H r Hr); rewrite ahead_iff in *.
    pose proof (lagrange_cross p q m r) as Ex.
    pose proof (lagrange_along p q m r) as Ey.
    rewrite Cm', (along_sym p m q), (cross_swap p q r),
      <- (along_sym p q r) in Ex, Ey.
    clear Max Hk Cm Cm' Hql l Nq Hq Hm Hr.
    scalars; to_R.
    eapply R_scaled_ahead; [exact PN | exact Pk | | | exact H]; lra. }
  exists m; split; [exact Hm |]; split; [| split; [exact Hahead |]].
  - intros E; destruct (cross_here q E) as [_ A].
    rewrite A in Pk; revert Pk; apply Qcle_not_lt, Qcle_refl.
  - intros r Hr; pose proof (Hahead r Hr) as Hm_r.
    rewrite ahead_iff in *; rewrite cross_cycle.
    destruct Hm_r as [Pos | [Zero _]]; [left; exact Pos | right].
    split; [exact Zero |].
    assert (Cr : Qcross p q r = 0%Qc).
    { pose proof (lagrange_cross p q m r) as Ex.
      rewrite Cm', (along_sym p m q), (cross_swap p q r), Zero in Ex.
      clear - Ex Pk; scalars; to_R.
      eapply R_zero_factor; [exact Pk | lra]. }
    assert (Hr_l : In r l)
      by (apply filter_In; split; [exact Hr | apply Qc_eq_bool_iff, Cr]).
    pose proof (Max r Hr_l) as Hy.
    pose proof (lagrange_back p q m r) as Ez.
    rewrite Cm', (cross_swap p q r), Cr in Ez.
    clear - Ez Hy PN Pk; scalars; to_R.
    eapply R_between; [exact PN | exact Pk | | exact Hy]; lra.
Qed.

(** ** Vertices *)

Lemma vec_eqb_iff (u v : Qvec) : vec_eqb u v = true <-> u = v.
Proof.
  revert v; induction u as [| a u IH]; intros [| b v]; simpl;
    try (split; [discriminate | discriminate]); [tauto |].
  rewrite andb_true_iff, Qc_eq_bool_iff, IH.
  split; [intros [-> ->]; reflexivity | intros E; inversion E; auto].
Qed.

Lemma planar_In (pts : list Qvec) (p : Qvec) :
  planar pts = true -> In p pts -> length p = 2.
Proof.
  unfold planar; rewrite forallb_forall; intros H Hp.
  apply Nat.eqb_eq, H, Hp.
Qed.

Lemma same_place_eq (p q : Qvec) :
  length p = 2 -> length q = 2 -> same_place p q -> p = q.
Proof.
  destruct p as [| px [| py [| ? ?]]]; try discriminate.
  destruct q as [| qx [| qy [| ? ?]]]; try discriminate.
  unfold same_place, xc, yc; simpl; intros _ _ [-> ->]; reflexivity.
Qed.

Lemma same_place_refl (p : Qvec) : same_place p p.
Proof. split; reflexivity. Qed.

Lemma same_place_sym (p q : Qvec) : same_place p q -> same_place q p.
Proof. intros [H1 H2]; split; symmetry; assumption. Qed.

Lemma is_vertex_iff (pts : list Qvec) (p : Qvec) :
  is_vertex pts p = true <->
  exists q, In q pts /\ q <> p /\ forall r, In r pts -> ahead p q r = true.
Proof.
  unfold is_vertex, supports; rewrite existsb_exists.
  split; intros (q & Hq & H); exists q; (split; [exact Hq |]).
  - apply andb_prop in H as [N A].
    split; [| apply forallb_forall; exact A].
    intros E; apply vec_eqb_iff in E; rewrite E in N; discriminate.
  - destruct H as [N A]; apply andb_true_intro; split.
    + destruct (vec_eqb q p) eqn:E; [| reflexivity].
      apply vec_eqb_iff in E; contradiction.
    + apply forallb_forall; exact A.
Qed.

(** From a vertex [p] there is a next one: the far end [m] of a supporting
    ray of [p]. *)
Lemma vertex_next (pts : list Qvec) (p : Qvec) :
  planar pts = true -> In p pts -> is_vertex pts p = true ->
  exists m, In m pts /\ is_vertex pts m = true /\ ~ same_place m p /\
            (forall r, In r pts -> ahead p m r = true) /\
            (forall r, In r pts -> ahead m r p = true).
Proof.
  intros Hpl Hp Hv.
  apply is_vertex_iff in Hv as (q & Hq & Nq & Hq_ahead).
  assert (Nq' : ~ same_place q p).
  { intros E; apply Nq, same_place_eq; try assumption;
      eapply planar_In; eassumption. }
  destruct (far_end pts Hq Nq' Hq_ahead) as (m & Hm & Nm & Hm1 & Hm2).
  exists m; split; [exact Hm |]; split; [| auto].
  destruct (partner_exists pts (o := m) (t := p))
    as (s & Hs & Ns & Hs_ahead).
  - intros E; apply Nm, same_place_sym, E.
  - exact Hm2.
  - exists p; split; [exact Hp |].
    intros E; apply Nm, same_place_sym, E.
  - apply is_vertex_iff; exists s; split; [exact Hs |]; split; [| exact Hs_ahead].
    intros ->; apply Ns, same_place_refl.
Qed.

Lemma lowest_point (l : list Qvec) :
  l <> [] ->
  exists a, In a l /\
            forall r, In r l ->
                      (xc 0%Qc a < xc 0%Qc r)%Qc
                      \/ (xc 0%Qc a = xc 0%Qc r
                          /\ (yc 0%Qc a <= yc 0%Qc r)%Qc).
Proof.
  intros N.
  destruct (list_max (fun r => (- xc 0%Qc r)%Qc) N) as (m & Hm & Mx).
  set (l' := filter (fun r => Qc_eq_bool (xc 0%Qc r) (xc 0%Qc m)) l).
  assert (Hml : In m l')
    by (apply filter_In; split; [exact Hm | apply Qc_eq_bool_iff; reflexivity]).
  destruct (list_max (fun r => (- yc 0%Qc r)%Qc) (l := l'))
    as (a & Ha & My).
  { intros E; rewrite E in Hml; contradiction. }
  apply filter_In in Ha as [Ha Ea]; apply Qc_eq_bool_iff in Ea.
  exists a; split; [exact Ha |].
  intros r Hr; specialize (Mx r Hr).
  destruct (Qc_eq_dec (xc 0%Qc r) (xc 0%Qc m)) as [E | NE].
  - right; split; [congruence |].
    assert (Hrl : In r l')
      by (apply filter_In; split; [exact Hr | apply Qc_eq_bool_iff, E]).
    specialize (My r Hrl); clear - My; to_R; lra.
  - left; rewrite Ea; clear - Mx NE; to_R; lra.
Qed.

Lemma forallb_false {A} (f : A -> bool) (l : list A) :
  forallb f l = false -> exists x, In x l /\ f x = false.
Proof.
  induction l as [| a l IH]; simpl; [discriminate |].
  destruct (f a) eqn:E; simpl.
  - intros H; destruct (IH H) as (x & Hx & Fx); eauto.
  - intros _; eauto.
Qed.

Lemma not_collinear_triple (pts : list Qvec) :
  collinear_b pts = false ->
  exists p q r, In p pts /\ In q pts /\ In r pts /\ Qcross p q r <> 0%Qc.
Proof.
  unfold collinear_b; intros H.
  apply forallb_false in H as (p & Hp & H).
  apply forallb_false in H as (q & Hq & H).
  apply forallb_false in H as (r & Hr & H).
  exists p, q, r; repeat (split; [assumption |]).
  intros E; apply Qc_eq_bool_iff in E; congruence.
Qed.

Lemma cross_one_place (a p q r : Qvec) :
  same_place p a -> same_place q a -> same_place r a ->
  Qcross p q r = 0%Qc.
Proof.
  unfold same_place; coords; intros [-> ->] [-> ->] [-> ->]; ring.
Qed.


Lemma cross_above (a r : Qvec) :
  Qcross a r (above a) = (xc 0%Qc r - xc 0%Qc a)%Qc
  /\ along a r (above a) = (yc 0%Qc r - yc 0%Qc a)%Qc.
Proof.
  coords; unfold above, xc, yc; cbn [nth]; split; ring.
Qed.

(** The lowest point in the lexicographic order is a vertex. *)
Lemma first_vertex (pts : list Qvec) :
  collinear_b pts = false ->
  exists a, In a pts /\ is_vertex pts a = true.
Proof.
  intros H.
  destruct (not_collinear_triple pts H) as (p & q & r & Hp & Hq & Hr & N).
  destruct (lowest_point (l := pts)) as (a & Ha & Low).
  { intros E; rewrite E in Hp; contradiction. }
  exists a; split; [exact Ha |].
  destruct (partner_exists pts (o := a) (t := above a))
    as (s & Hs & Ns & Hs_ahead).
  - unfold same_place, above, xc, yc; cbn [nth]; intros [_ E].
    clear - E; to_R; lra.
  - intros x Hx; apply ahead_iff.
    destruct (cross_above a x) as [-> ->].
    destruct (Low x Hx) as [L | [E L]]; [left | right; split].
    + clear - L; to_R; lra.
    + rewrite E; ring.
    + clear - L; to_R; lra.
  - destruct (same_place_dec p a) as [Ep | Np]; [| eauto].
    destruct (same_place_dec q a) as [Eq | Nq]; [| eauto].
    destruct (same_place_dec r a) as [Er | Nr]; [| eauto].
    exfalso; apply N; eapply cross_one_place; eassumption.
  - apply is_vertex_iff; exists s; split; [exact Hs |]; split;
      [| exact Hs_ahead].
    intros ->; apply Ns, same_place_refl.
Qed.

Lemma R_opposite_zero (n k u v : R) :
  (0 < n -> 0 < k -> 0 <= u -> 0 <= v -> n * u = - k * v -> v = 0)%R.
Proof.
  intros Hn Hk Hu Hv E.
  assert (0 <= n * u)%R by (apply Rmult_le_pos; lra).
  assert (0 <= k * v)%R by (apply Rmult_le_pos; lra).
  assert (k * v = 0)%R by lra.
  eapply R_zero_factor; eassumption.
Qed.

Lemma R_sq_pos_of_sum (c d n : R) :
  (0 < n -> c = 0 -> 0 <= d -> c * c + d * d = n -> 0 < d)%R.
Proof. intros Hn -> Hd E. nra. Qed.

Lemma ahead_nonneg (p q r : Qvec) :
  ahead p q r = true -> (0 <= Qcross p q r)%Qc.
Proof.
  rewrite ahead_iff; intros [H | [-> _]];
    [apply Qclt_le_weak; exact H | apply Qcle_refl].
Qed.

Lemma line_identity (a b x y z : Qvec) :
  (norm2 a b * Qcross x y z
   = ((xc 0 z - xc 0 x) * (xc 0 b - xc 0 a)
      + (yc 0 z - yc 0 x) * (yc 0 b - yc 0 a))
     * (Qcross a b x - Qcross a b y)
     - ((xc 0 y - xc 0 x) * (xc 0 b - xc 0 a)
        + (yc 0 y - yc 0 x) * (yc 0 b - yc 0 a))
       * (Qcross a b x - Qcross a b z))%Qc.
Proof. coords; ring. Qed.

Lemma line_collinear (a b x y z : Qvec) :
  ~ same_place b a ->
  Qcross a b x = 0%Qc -> Qcross a b y = 0%Qc -> Qcross a b z = 0%Qc ->
  Qcross x y z = 0%Qc.
Proof.
  intros N Hx Hy Hz.
  pose proof (line_identity a b x y z) as E.
  rewrite Hx, Hy, Hz in E.
  assert (E0 : (norm2 a b * Qcross x y z = 0)%Qc) by (rewrite E; ring).
  apply Qcmult_integral in E0 as [E0 | E0]; [| exact E0].
  exfalso; apply N, norm2_zero, E0.
Qed.

(** A point set that is not on one line has three vertices that are not on
    one line. *)
Lemma three_vertices (pts : list Qvec) :
  planar pts = true -> collinear_b pts = false ->
  exists a b c,
    (In a pts /\ is_vertex pts a = true) /\
    (In b pts /\ is_vertex pts b = true) /\
    (In c pts /\ is_vertex pts c = true) /\
    Qcross a b c <> 0%Qc.
Proof.
  intros Hpl Hnc.
  destruct (first_vertex pts Hnc) as (a & Ha & Va).
  destruct (vertex_next pts a Hpl Ha Va) as (b & Hb & Vb & Nb & Hab & Hba).
  destruct (vertex_next pts b Hpl Hb Vb) as (c & Hc & Vc & Nc & Hbc & _).
  exists a, b, c; repeat (split; [split; assumption |]).
  intros E.
  assert (Pk : (0 < along b c a)%Qc).
  { pose proof (Hba c Hc) as H; rewrite ahead_iff, cross_cycle, E in H.
    destruct H as [H | [_ H]];
      [exfalso; revert H; apply Qcle_not_lt, Qcle_refl |].
    pose proof (norm_split b c a) as Q.
    rewrite cross_cycle, E in Q.
    pose proof (norm2_pos Nc) as P1; pose proof (norm2_pos (p := b) (q := a))
      as P2.
    assert (P3 : (0 < norm2 b a)%Qc)
      by (apply P2; intros S; apply Nb, same_place_sym, S).
    clear - Q H P1 P3; scalars; to_R.
    pose proof (Rmult_lt_0_compat _ _ P1 P3).
    eapply R_sq_pos_of_sum with (c := 0%R); [eassumption | reflexivity | exact H | lra]. }
  assert (Line : forall r, In r pts -> Qcross a b r = 0%Qc).
  { intros r Hr.
    pose proof (ahead_nonneg _ _ _ (Hab r Hr)) as V.
    pose proof (ahead_nonneg _ _ _ (Hbc r Hr)) as U.
    pose proof (lagrange_cross b a c r) as Ex.
    rewrite (cross_cycle a b c), E, (cross_cycle a b r) in Ex.
    assert (P3 : (0 < norm2 b a)%Qc)
      by (apply norm2_pos; intros S; apply Nb, same_place_sym, S).
    clear - Ex U V Pk P3; scalars; to_R.
    eapply R_opposite_zero; [exact P3 | exact Pk | exact U | exact V | lra]. }
  assert (Hcol : collinear_b pts = true).
  { apply collinear_b_iff; intros x y z Hx Hy Hz.
    apply (line_collinear (a := a) (b := b)); auto. }
  congruence.
Qed.

(** ** Convex combinations *)

Lemma wsum_ext (f g : Qvec -> Qc) (ws : list (Qc * Qvec)) :
  (forall p, f p = g p) -> wsum f ws = wsum g ws.
Proof.
  intros E; induction ws as [| [l p] ws IH]; simpl; [reflexivity |].
  rewrite E, IH; reflexivity.
Qed.

Lemma wsum_affine (a b c : Qc) (ws : list (Qc * Qvec)) :
  wsum (fun p => (a * xc 0 p + b * yc 0 p + c)%Qc) ws
  = (a * wsum (xc 0%Qc) ws + b * wsum (yc 0%Qc) ws
     + c * wsum (fun _ => 1%Qc) ws)%Qc.
Proof.
  induction ws as [| [l p] ws IH]; simpl; [ring |].
  rewrite IH; ring.
Qed.

Lemma wsum_nonneg (f : Qvec -> Qc) (ws : list (Qc * Qvec)) :
  (forall l p, In (l, p) ws -> (0 <= l * f p)%Qc) ->
  (0 <= wsum f ws)%Qc.
Proof.
  induction ws as [| [l p] ws IH]; intros H; simpl; [apply Qcle_refl |].
  assert (H1 : (0 <= l * f p)%Qc) by (apply H; left; reflexivity).
  assert (H2 : (0 <= wsum f ws)%Qc)
    by (apply IH; intros l' p' Hin; apply H; right; exact Hin).
  clear - H1 H2.
  set (x := (l * f p)%Qc) in *; set (y := wsum f ws) in *; clearbody x y.
  to_R; lra.
Qed.

Lemma wsum_zero_terms (f : Qvec -> Qc) (ws : list (Qc * Qvec)) :
  (forall l p, In (l, p) ws -> (0 <= l * f p)%Qc) ->
  wsum f ws = 0%Qc ->
  forall l p, In (l, p) ws -> (l * f p = 0)%Qc.
Proof.
  induction ws as [| [l0 p0] ws IH]; intros H E l p Hin; [contradiction |].
  simpl in E.
  assert (H1 : (0 <= l0 * f p0)%Qc) by (apply H; left; reflexivity).
  assert (H2 : (0 <= wsum f ws)%Qc)
    by (apply wsum_nonneg; intros l' p' Hin'; apply H; right; exact Hin').
  assert (E12 : (l0 * f p0 = 0 /\ wsum f ws = 0)%Qc).
  { clear - H1 H2 E.
    set (x := (l0 * f p0)%Qc) in *; set (y := wsum f ws) in *; clearbody x y.
    to_R; lra. }
  destruct E12 as [E1 E2].
  destruct Hin as [Hin | Hin]; [inversion Hin; subst; exact E1 |].
  apply IH; try assumption.
  intros l' p' Hin'; apply H; right; exact Hin'.
Qed.

Lemma wsum_zero_weights (f : Qvec -> Qc) (ws : list (Qc * Qvec)) :
  (forall l p, In (l, p) ws -> l = 0%Qc) -> wsum f ws = 0%Qc.
Proof.
  induction ws as [| [l p] ws IH]; intros H; simpl; [reflexivity |].
  rewrite (H l p (or_introl eq_refl)), IH; [ring |].
  intros l' p' Hin; apply (H l' p'); right; exact Hin.
Qed.

Lemma cross_affine (v q p : Qvec) :
  Qcross v q p
  = (- (yc 0 q - yc 0 v) * xc 0 p + (xc 0 q - xc 0 v) * yc 0 p
     + ((yc 0 q - yc 0 v) * xc 0 v - (xc 0 q - xc 0 v) * yc 0 v))%Qc.
Proof. coords; ring. Qed.

Lemma along_affine (v q p : Qvec) :
  along v q p
  = ((xc 0 q - xc 0 v) * xc 0 p + (yc 0 q - yc 0 v) * yc 0 p
     + (- (xc 0 q - xc 0 v) * xc 0 v - (yc 0 q - yc 0 v) * yc 0 v))%Qc.
Proof. coords; ring. Qed.

Lemma R_product_sign (l f : R) :
  (0 <= l -> 0 <= f -> 0 <= l * f)%R.
Proof. apply Rmult_le_pos. Qed.

(** A vertex is no convex combination of other input points. *)
Lemma vertex_extreme (pts others : list Qvec) (v : Qvec) :
  planar pts = true -> In v pts -> is_vertex pts v = true ->
  (forall p, In p others -> In p pts /\ p <> v) ->
  ~ convex_combination others v.
Proof.
  intros Hpl Hv Vv Hothers (ws & Hws & Hone & Hx & Hy).
  apply is_vertex_iff in Vv as (q & Hq & Nq & Hahead).
  assert (Nq' : ~ same_place q v).
  { intros E; apply Nq, same_place_eq; try assumption;
      eapply planar_In; eassumption. }
  assert (Hw : forall l p, In (l, p) ws ->
                 (0 <= l)%Qc /\ In p pts /\ p <> v /\ ahead v q p = true).
  { intros l p Hin; destruct (Hws l p Hin) as [Hl Hp].
    destruct (Hothers p Hp) as [Hp' Np]; auto. }
  assert (Ecross : wsum (Qcross v q) ws = 0%Qc).
  { rewrite (wsum_ext _ _ ws (cross_affine v q)), wsum_affine.
    rewrite Hone, Hx, Hy; ring. }
  assert (Ealong : wsum (along v q) ws = 0%Qc).
  { rewrite (wsum_ext _ _ ws (along_affine v q)), wsum_affine.
    rewrite Hone, Hx, Hy; ring. }
  assert (Zcross : forall l p, In (l, p) ws -> (l * Qcross v q p = 0)%Qc).
  { apply wsum_zero_terms; [| exact Ecross].
    intros l p Hin; destruct (Hw l p Hin) as (Hl & _ & _ & Ha).
    apply ahead_nonneg in Ha; clear - Hl Ha; scalars; to_R.
    apply R_product_sign; assumption. }
  assert (Zalong : forall l p, In (l, p) ws -> (l * along v q p = 0)%Qc).
  { apply wsum_zero_terms; [| exact Ealong].
    intros l p Hin; destruct (Hw l p Hin) as (Hl & _ & _ & Ha).
    specialize (Zcross l p Hin).
    apply Qcmult_integral in Zcross as [-> | Zc].
    - rewrite Qcmult_0_l; apply Qcle_refl.
    - apply ahead_iff in Ha as [Ha | [_ Ha]].
      + rewrite Zc in Ha; exfalso; revert Ha; apply Qcle_not_lt, Qcle_refl.
      + clear - Hl Ha; scalars; to_R; apply R_product_sign; assumption. }
  assert (Zero : forall l p, In (l, p) ws -> l = 0%Qc).
  { intros l p Hin; destruct (Hw l p Hin) as (_ & Hp & Np & _).
    destruct (Qc_eq_dec l 0%Qc) as [E | N]; [exact E | exfalso].
    pose proof (Zcross l p Hin) as Zc; pose proof (Zalong l p Hin) as Za.
    apply Qcmult_integral in Zc as [Zc | Zc]; [contradiction |].
    apply Qcmult_integral in Za as [Za | Za]; [contradiction |].
    pose proof (norm_split v p q) as Q.
    rewrite cross_swap, Zc, along_sym, Za in Q.
    assert (Q0 : (norm2 v p * norm2 v q = 0)%Qc) by (rewrite <- Q; ring).
    apply Qcmult_integral in Q0 as [Q0 | Q0].
    - apply Np, same_place_eq;
        [eapply planar_In; eassumption | eapply planar_In; eassumption |].
      apply norm2_zero, Q0.
    - apply Nq', norm2_zero, Q0. }
  rewrite (wsum_zero_weights _ ws Zero) in Hone.
  discriminate Hone.
Qed.

(** ** The exact hull, as lists *)

Lemma mapM_getitem (pts : list Qvec) (idxs : list nat) :
  (forall i, In i idxs -> i < length pts) ->
  mapM (fun vert => getitem pts vert) idxs = inr (map (point_at pts) idxs).
Proof.
  induction idxs as [| i idxs IH]; intros H; simpl; [reflexivity |].
  unfold getitem at 1.
  rewrite (nth_error_nth' pts [] (H i (or_introl eq_refl))); simpl.
  rewrite IH; [reflexivity |].
  intros j Hj; apply H; right; exact Hj.
Qed.

Lemma vertex_indices_spec (pts : list Qvec) (i : nat) :
  In i (vertex_indices pts) <->
  exists p, nth_error pts i = Some p /\ is_vertex pts p = true
            /\ first_at pts i p = true.
Proof.
  unfold vertex_indices; rewrite filter_In, in_seq.
  split.
  - intros [_ H]; destruct (nth_error pts i) as [p |]; [| discriminate].
    apply andb_prop in H as [H1 H2]; eauto.
  - intros (p & E & H1 & H2); split.
    + split; [lia |]; simpl; apply nth_error_Some; congruence.
    + rewrite E, H1, H2; reflexivity.
Qed.

Lemma vertex_indices_NoDup (pts : list Qvec) : NoDup (vertex_indices pts).
Proof. apply NoDup_filter, seq_NoDup. Qed.

Lemma insert_by_perm (lt : nat -> nat -> bool) (i : nat) (l : list nat) :
  Permutation (insert_by lt i l) (i :: l).
Proof.
  induction l as [| j l IH]; simpl; [reflexivity |].
  destruct (lt i j); [reflexivity |].
  rewrite IH; apply perm_swap.
Qed.

Lemma sort_by_perm (lt : nat -> nat -> bool) (l : list nat) :
  Permutation (sort_by lt l) l.
Proof.
  induction l as [| i l IH]; simpl; [reflexivity |].
  rewrite insert_by_perm, IH; reflexivity.
Qed.

Lemma lowest_In (pts : list Qvec) (idxs : list nat) (k : nat) :
  lowest pts idxs = Some k -> In k idxs.
Proof.
  revert k; induction idxs as [| i idxs IH]; intros k; simpl; [discriminate |].
  destruct (lowest pts idxs) as [j |].
  - destruct (lex_ltb _ _); intros E; inversion E; subst; auto.
  - intros E; inversion E; auto.
Qed.

Lemma lowest_None (pts : list Qvec) (idxs : list nat) :
  lowest pts idxs = None -> idxs = [].
Proof.
  destruct idxs as [| i idxs]; simpl; [reflexivity |].
  destruct (lowest pts idxs) as [j |]; [destruct (lex_ltb _ _) |];
    discriminate.
Qed.

Lemma remove_perm (k : nat) (l : list nat) :
  NoDup l -> In k l -> Permutation (k :: remove Nat.eq_dec k l) l.
Proof.
  induction 1 as [| i l Hi Hl IH]; intros Hk; [contradiction |].
  simpl; destruct (Nat.eq_dec k i) as [-> | N].
  - rewrite notin_remove by exact Hi; reflexivity.
  - destruct Hk as [E | Hk]; [congruence |].
    rewrite perm_swap, (IH Hk); reflexivity.
Qed.

Lemma counter_clockwise_perm (pts : list Qvec) (idxs : list nat) :
  NoDup idxs -> Permutation (counter_clockwise pts idxs) idxs.
Proof.
  intros H; unfold counter_clockwise.
  destruct (lowest pts idxs) as [k |] eqn:E.
  - rewrite sort_by_perm; apply remove_perm; [exact H |].
    eapply lowest_In; exact E.
  - apply lowest_None in E; subst; reflexivity.
Qed.

Lemma hull_reduce_exact_ok (pts vs : list Qvec) :
  hull_reduce_exact pts = inr vs <->
  pts <> [] /\ planar pts = true /\ collinear_b pts = false /\
  vs = map (point_at pts) (counter_clockwise pts (vertex_indices pts)).
Proof.
  unfold hull_reduce_exact, hull_reduce, ConvexHull_exact.
  assert (Hidx : forall i,
             In i (counter_clockwise pts (vertex_indices pts)) ->
             i < length pts).
  { intros i Hi.
    apply (Permutation_in _ (counter_clockwise_perm pts
                               (vertex_indices_NoDup pts))) in Hi.
    apply vertex_indices_spec in Hi as (p & E & _).
    apply nth_error_Some; congruence. }
  destruct pts as [| p0 pts]; [split; [discriminate | intros [N _]; congruence] |].
  destruct (planar (p0 :: pts)); cbn [negb];
    [| split; [discriminate | intros (_ & N & _); discriminate]].
  destruct (collinear_b (p0 :: pts));
    [split; [discriminate | intros (_ & _ & N & _); discriminate] |].
  unfold ok; cbn [bind hull_points hull_vertices].
  pose proof (mapM_getitem _ _ Hidx) as Hmap.
  split.
  - intros E; pose proof (eq_trans (eq_sym Hmap) E) as E'.
    inversion E'; repeat split; discriminate.
  - intros (_ & _ & _ & ->); exact Hmap.
Qed.

Lemma first_occurrence (pts : list Qvec) (p : Qvec) :
  In p pts ->
  exists i, nth_error pts i = Some p /\ first_at pts i p = true.
Proof.
  unfold first_at; induction pts as [| x pts IH]; intros H; [contradiction |].
  destruct (vec_eqb p x) eqn:E.
  - apply vec_eqb_iff in E; subst x; exists 0; split; reflexivity.
  - destruct H as [-> | H].
    + assert (vec_eqb p p = true) by (apply vec_eqb_iff; reflexivity).
      congruence.
    + destruct (IH H) as (i & Hi & Fi); exists (S i); split; [exact Hi |].
      cbn [firstn existsb]; rewrite E; exact Fi.
Qed.

Lemma first_at_unique (pts : list Qvec) (i j : nat) (p : Qvec) :
  i < j -> nth_error pts i = Some p -> first_at pts j p = true -> False.
Proof.
  unfold first_at; intros Lt Hi Fj.
  apply negb_true_iff in Fj.
  assert (Hin : In p (firstn j pts)).
  { apply nth_error_In with (n := i).
    rewrite nth_error_firstn.
    destruct (Nat.ltb_spec i j); [exact Hi | lia]. }
  assert (Hex : existsb (vec_eqb p) (firstn j pts) = true).
  { apply existsb_exists; exists p; split; [exact Hin |].
    apply vec_eqb_iff; reflexivity. }
  congruence.
Qed.

Lemma NoDup_map_on {A B} (f : A -> B) (l : list A) :
  (forall x y, In x l -> In y l -> f x = f y -> x = y) ->
  NoDup l -> NoDup (map f l).
Proof.
  intros Inj H; induction H as [| a l Ha Hl IH]; simpl; constructor.
  - intros Hin; apply in_map_iff in Hin as (b & E & Hb).
    apply Ha; rewrite <- (Inj b a); auto; [right; exact Hb | left; reflexivity].
  - apply IH; intros x y Hx Hy; apply Inj; right; assumption.
Qed.

(** What the exact hull reduction emits: every vertex of the input once. *)
Lemma hull_reduce_exact_emits (pts vs : list Qvec) :
  hull_reduce_exact pts = inr vs ->
  NoDup vs /\
  forall p, In p vs <-> In p pts /\ is_vertex pts p = true.
Proof.
  intros H; apply hull_reduce_exact_ok in H as (_ & _ & _ & ->).
  pose proof (counter_clockwise_perm pts (vertex_indices_NoDup pts)) as P.
  assert (Hpt : forall i p, nth_error pts i = Some p -> point_at pts i = p)
    by (intros i p E; unfold point_at; apply nth_error_nth; exact E).
  split.
  - apply (Permutation_NoDup (Permutation_map (point_at pts)
                                              (Permutation_sym P))).
    apply NoDup_map_on; [| apply vertex_indices_NoDup].
    intros i j Hi Hj E.
    apply vertex_indices_spec in Hi as (p & Ei & _ & Fi).
    apply vertex_indices_spec in Hj as (q & Ej & _ & Fj).
    rewrite (Hpt _ _ Ei), (Hpt _ _ Ej) in E; subst q.
    destruct (Nat.lt_trichotomy i j) as [L | [L | L]]; [| exact L |];
      exfalso; eapply first_at_unique; eassumption.
  - intros p; split.
    + intros Hin; apply in_map_iff in Hin as (i & E & Hi).
      apply (Permutation_in _ P), vertex_indices_spec in Hi
        as (q & Ei & Vq & _).
      rewrite (Hpt _ _ Ei) in E; subst q.
      split; [eapply nth_error_In; exact Ei | exact Vq].
    + intros [Hin Vp].
      destruct (first_occurrence pts p Hin) as (i & Ei & Fi).
      apply in_map_iff; exists i; split; [apply Hpt; exact Ei |].
      apply (Permutation_in _ (Permutation_sym P)), vertex_indices_spec.
      eauto.
Qed.

(** ** Idempotence and minimality *)

Lemma vertices_stay_vertices (pts vs : list Qvec) (p : Qvec) :
  hull_reduce_exact pts = inr vs ->
  In p vs -> is_vertex vs p = true.
Proof.
  intros H Hp.
  destruct (hull_reduce_exact_emits pts H) as [_ Hin].
  apply hull_reduce_exact_ok in H as (_ & Hpl & _ & _).
  destruct (proj1 (Hin p) Hp) as [Hp' Vp].
  destruct (vertex_next pts p Hpl Hp' Vp) as (m & Hm & Vm & Nm & Hahead & _).
  apply is_vertex_iff; exists m; split; [apply Hin; auto |]; split.
  - intros ->; apply Nm, same_place_refl.
  - intros r Hr; apply Hahead, (proj1 (Hin r) Hr).
Qed.

Lemma hull_reduce_exact_again (pts vs : list Qvec) :
  hull_reduce_exact pts = inr vs ->
  exists ws, hull_reduce_exact vs = inr ws.
Proof.
  intros H.
  destruct (hull_reduce_exact_emits pts H) as [_ Hin].
  pose proof H as H0.
  apply hull_reduce_exact_ok in H0 as (_ & Hpl & Hnc & _).
  destruct (three_vertices pts Hpl Hnc)
    as (a & b & c & Ha & Hb & Hc & N).
  apply Hin in Ha, Hb, Hc.
  eexists; apply hull_reduce_exact_ok; split; [| split; [| split]].
  - intros E; rewrite E in Ha; contradiction.
  - apply forallb_forall; intros p Hp; apply Nat.eqb_eq.
    eapply planar_In; [exact Hpl | apply Hin; exact Hp].
  - destruct (collinear_b vs) eqn:E; [| reflexivity].
    exfalso; apply N; apply collinear_b_iff in E; apply E; assumption.
  - reflexivity.
Qed.

(** C6.  For hull reduction over the exact hull of points of the plane
    ([ConvexHull_exact]): when it accepts a point set and emits [vs], it
    accepts [vs] as well and emits the same vertices again (a permutation of
    [vs]); and no emitted vertex is a convex combination of the other
    emitted vertices. *)
Theorem hull_reduce_idempotent_minimal (pts vs : list Qvec) :
  hull_reduce_exact pts = inr vs ->
  (exists ws, hull_reduce_exact vs = inr ws /\ Permutation ws vs) /\
  (forall v before after,
      vs = before ++ v :: after ->
      ~ convex_combination (before ++ after) v).
Proof.
  intros H.
  destruct (hull_reduce_exact_emits pts H) as [Hnd Hin].
  split.
  - destruct (hull_reduce_exact_again pts H) as (ws & Hws).
    exists ws; split; [exact Hws |].
    destruct (hull_reduce_exact_emits vs Hws) as [Hnd' Hin'].
    apply NoDup_Permutation; try assumption.
    intros p; rewrite Hin'; split; [tauto |].
    intros Hp; split; [exact Hp |].
    eapply vertices_stay_vertices; eassumption.
  - intros v before after E.
    assert (Hv : In v vs) by (rewrite E; apply in_elt).
    destruct (proj1 (Hin v) Hv) as [Hv' Vv].
    apply hull_reduce_exact_ok in H as (_ & Hpl & _ & _).
    eapply vertex_extreme; [exact Hpl | exact Hv' | exact Vv |].
    intros p Hp; rewrite E in Hnd.
    apply NoDup_remove in Hnd as [_ Hnot]; split.
    + apply Hin; rewrite E.
      apply in_app_or in Hp as [Hp | Hp]; apply in_or_app;
        [left | right; right]; exact Hp.
    + intros ->; apply Hnot, Hp.
Qed.

(** The exact hull has a vertex. *)
Lemma ConvexHull_exact_vertices (pts : list Qvec) (h : hull Qc) :
  ConvexHull_exact pts = inr h -> hull_vertices h <> [].
Proof.
  intros H E.
  assert (Hred : hull_reduce_exact pts
                 = inr (map (point_at pts)
                            (counter_clockwise pts (vertex_indices pts)))).
  { apply hull_reduce_exact_ok.
    unfold ConvexHull_exact in H.
    destruct pts as [| p pts]; [discriminate |].
    destruct (planar (p :: pts)); [| discriminate]; cbn [negb] in H.
    destruct (collinear_b (p :: pts)); [discriminate |].
    repeat split; discriminate. }
  pose proof Hred as Hok.
  apply hull_reduce_exact_ok in Hok as (_ & _ & Hnc & _).
  destruct (first_vertex pts Hnc) as (a & Ha & Va).
  apply hull_reduce_exact_emits in Hred as [_ Hin].
  assert (Hv : hull_vertices h = counter_clockwise pts (vertex_indices pts)).
  { unfold ConvexHull_exact in H.
    destruct pts as [| p pts]; [discriminate |].
    destruct (negb _); [discriminate |].
    destruct (collinear_b _); [discriminate |].
    inversion H; reflexivity. }
  rewrite <- Hv, E in Hin.
  apply (Hin a); split; assumption.
Qed.

(** ** Closed runs *)

Lemma run_square :
  exists recs,
    approx_exact unit_square shear [] None (Some false) world0
    = inr (PyList recs, world0).
Proof. eexists; vm_compute; reflexivity. Defined.

Lemma run_square_bloated :
  exists recs,
    approx_exact unit_square shear triangle None (Some false) world0
    = inr (PyList recs, world0).
Proof. eexists; vm_compute; reflexivity. Defined.

(** Witness of C1: the unit square under the shear flow and the default
    step. *)
Lemma propagated_record_witness :
  exists recs flowpipe vs,
    approx_exact unit_square shear [] None (Some false) world0
    = inr (PyList recs, world0) /\
    length flowpipe = 4 /\
    hull_reduce_exact flowpipe = inr vs /\
    nth_error recs 1 = Some (Polytope "mat_exp(flow) * I" vs).
Proof.
  destruct run_square as (recs & H); unfold approx_exact in H.
  pose proof H as Hrun.
  apply propagated_record in H as (M & fp & vs & _ & Hfp & Hvs & H1 & _).
  exists recs, fp, vs.
  split; [exact Hrun |].
  split; [symmetry; apply (Forall2_length Hfp) |].
  split; assumption.
Defined.

(** Witness of C2: the unit square bloated by a triangle; twelve sums. *)
Lemma enclosure_record_witness :
  exists recs sums vs,
    approx_exact unit_square shear triangle None (Some false) world0
    = inr (PyList recs, world0) /\
    length sums = 12 /\
    hull_reduce_exact (sums ++ unit_square) = inr vs /\
    nth_error recs 2
    = Some (Polytope
              "Omega_1: convHull(mink_sum(mat_exp(flow) * I, bloat), I)" vs).
Proof.
  destruct run_square_bloated as (recs & H); unfold approx_exact in H.
  pose proof H as Hrun.
  apply enclosure_record in H
    as (M & fp & sums & vs & _ & _ & _ & Hlen & Hfp & Hvs & H2);
    [| discriminate].
  exists recs, sums, vs.
  split; [exact Hrun |].
  split; [etransitivity; [exact Hlen | rewrite Hfp; reflexivity] |].
  split; assumption.
Defined.

(** Witness of C4, with a bloating region: four records. *)
Lemma record_order_witness :
  exists recs,
    approx_exact unit_square shear triangle None (Some false) world0
    = inr (PyList recs, world0) /\
    map name recs
    = [ "Initial Valuation I"%string;
        "mat_exp(flow) * I"%string;
        "Omega_1: convHull(mink_sum(mat_exp(flow) * I, bloat), I)"%string;
        "Bloating"%string ].
Proof.
  destruct run_square_bloated as (recs & H); unfold approx_exact in H.
  exists recs; split; [exact H |].
  apply record_order in H as (Hnames & _); exact Hnames.
Defined.

(** Witness of C5: no bloating region, three records. *)
Lemma empty_bloating_witness :
  exists recs,
    approx_exact unit_square shear [] None (Some false) world0
    = inr (PyList recs, world0) /\
    ~ In "Bloating"%string (map name recs) /\
    length recs = 3.
Proof.
  destruct run_square as (recs & H); unfold approx_exact in H.
  exists recs; split; [exact H |].
  apply empty_bloating in H as (Hn & Hl & _).
  split; assumption.
Defined.

(** Witness of C9: the exact hull keeps its input in [points]. *)
Lemma vertices_from_candidates_witness :
  exists recs flowpipe sums,
    approx_exact unit_square shear triangle None (Some false) world0
    = inr (PyList recs, world0) /\
    Forall2 (fun c r => name r = name c /\
                        forall v, In v (vertices r) -> In v (vertices c))
            (candidates unit_square flowpipe sums triangle) recs.
Proof.
  destruct run_square_bloated as (recs & H); unfold approx_exact in H.
  pose proof H as Hrun.
  apply vertices_from_candidates in H as (M & fp & sums & _ & _ & _ & HF);
    [| exact ConvexHull_exact_points].
  exists recs, fp, sums; split; [exact Hrun | exact HF].
Defined.

(** Witness of C3: three points of the x axis as the initial region.  The
    first hull computation refuses them and the call raises that
    exception. *)
Lemma degenerate_hull_aborts_witness :
  ConvexHull_exact on_a_line = inl QhullError /\
  forall plot w,
    approx_exact on_a_line shear [] None plot w = inl QhullError.
Proof.
  assert (Hrun :
    exists e,
      ConvexHull_exact
        (vertices (Polytope "Initial Valuation I"%string on_a_line))
      = inl e /\
      forall plot w, approx_exact on_a_line shear [] None plot w = inl e).
  { unfold approx_exact.
    eapply degenerate_hull_aborts with (pre := []).
    - exact ConvexHull_exact_degenerate.
    - vm_compute; reflexivity.
    - vm_compute; reflexivity.
    - vm_compute; reflexivity.
    - reflexivity.
    - intros p [].
    - split.
      + intros p [<- | [<- | [<- | []]]]; reflexivity.
      + right; apply collinear_b_iff; vm_compute; reflexivity. }
  destruct Hrun as (e & He & Hrun).
  assert (e = QhullError) as -> by (vm_compute in He; congruence).
  split; [reflexivity | exact Hrun].
Defined.

(** Counterexample to C8 as stated: step sizes that are not positive
    (minus one, and zero) with matching dimensions; the calls return their
    records. *)
Lemma nonpositive_step_accepted :
  (Q2Qc (-1) <= 0)%Qc /\
  (exists recs,
      approx_exact triangle shear [] (Some (Q2Qc (-1))) (Some false) world0
      = inr (PyList recs, world0)) /\
  (exists recs,
      approx_exact triangle shear [] (Some (Q2Qc 0)) (Some false) world0
      = inr (PyList recs, world0)).
Proof.
  split; [discriminate |].
  split; eexists; vm_compute; reflexivity.
Defined.

(** Witness of C8 as amended: a point with three coordinates and a flow
    with two columns. *)
Lemma dimension_mismatch_raises_witness :
  exists e,
    (e = ValueError
     \/ expm_exact (scale Qcmult (default 1%Qc None) shear) = inl e) /\
    forall plot w,
      approx_exact [[Q2Qc 1; Q2Qc 2; Q2Qc 3]] shear [] None plot w = inl e.
Proof.
  unfold approx_exact.
  apply dimension_mismatch_raises.
  - exact expm_exact_ncols.
  - exists [Q2Qc 1; Q2Qc 2; Q2Qc 3]; split; [left; reflexivity |].
    vm_compute; discriminate.
Defined.

(** Witness of C7: the zero flow on the unit square over a step of five. *)
Lemma zero_flow_identity_witness :
  exists recs vs,
    approx_exact unit_square (zeros 0%Qc 2) [] (Some (Q2Qc 5)) (Some false)
                 world0
    = inr (PyList recs, world0) /\
    nth_error recs 0 = Some (Polytope "Initial Valuation I" vs) /\
    nth_error recs 1 = Some (Polytope "mat_exp(flow) * I" vs).
Proof.
  assert (Hrun : exists recs,
             approx_exact unit_square (zeros 0%Qc 2) [] (Some (Q2Qc 5))
                          (Some false) world0
             = inr (PyList recs, world0))
    by (eexists; vm_compute; reflexivity).
  destruct Hrun as (recs & H); unfold approx_exact in H.
  assert (Hdim : Forall (fun v : Qvec => length v = 2) unit_square)
    by (repeat constructor).
  assert (Hexp : expm_exact (zeros 0%Qc 2) = inr (identity 0%Qc 1%Qc 2))
    by (vm_compute; reflexivity).
  pose proof H as Hrun.
  apply zero_flow_identity with (n := 2) in H as (vs & H0 & H1 & _);
    [ exists recs, vs; split; [exact Hrun | split; assumption]
    | exact Qcmult_0_r | exact Qcmult_0_l | exact Qcmult_1_l
    | exact Qcplus_0_l | exact Qcplus_0_r | exact Hexp | exact Hdim ].
Defined.

(** A run of C10: the call that omits the flag returns [None] and plots one
    figure. *)
Lemma rendering_flag_default_witness :
  exists w',
    approx_exact unit_square shear [] None None world0 = inr (PyNone, w') /\
    length (plotted w') = 1.
Proof.
  assert (Hrun : exists r w',
             approx_exact unit_square shear [] None None world0
             = inr (r, w'))
    by (do 2 eexists; vm_compute; reflexivity).
  destruct Hrun as (r & w' & H); unfold approx_exact in H.
  destruct (rendering_flag_default
              0%Qc 1%Qc tenth_exact Qcplus Qcminus Qcmult
              expm_exact ConvexHull_exact randint_exact str_exact
              unit_square shear [] None world0)
    as (_ & _ & Hnone & _).
  destruct (Hnone r w' H) as (-> & fig & Hfig).
  exists w'; split; [exact H |].
  rewrite Hfig; reflexivity.
Defined.

(** Witness of C6: the unit square with its centre and an edge midpoint. *)
Lemma hull_reduce_idempotent_minimal_witness :
  exists vs ws,
    hull_reduce_exact
      (unit_square ++ [[Q2Qc (1 # 2); Q2Qc (1 # 2)]; [Q2Qc (1 # 2); Q2Qc 0]])
    = inr vs /\
    length vs = 4 /\
    hull_reduce_exact vs = inr ws /\ Permutation ws vs.
Proof.
  assert (Hrun : exists vs,
             hull_reduce_exact
               (unit_square
                  ++ [[Q2Qc (1 # 2); Q2Qc (1 # 2)]; [Q2Qc (1 # 2); Q2Qc 0]])
             = inr vs /\ length vs = 4)
    by (eexists; split; vm_compute; reflexivity).
  destruct Hrun as (vs & H & Hlen).
  destruct (hull_reduce_idempotent_minimal _ H) as [(ws & Hws & P) _].
  exists vs, ws; auto.
Defined.

(** ** Closed runs: stages, failures and rendering *)

(** Witness of X1: the shear flow over a step of zero leaves the unit square
    where it is. *)
Lemma zero_step_identity_witness :
  exists recs vs,
    approx_exact unit_square shear [] (Some 0%Qc) (Some false) world0
    = inr (PyList recs, world0) /\
    nth_error recs 0 = Some (Polytope "Initial Valuation I" vs) /\
    nth_error recs 1 = Some (Polytope "mat_exp(flow) * I" vs).
Proof.
  assert (Hrun : exists recs,
             approx_exact unit_square shear [] (Some 0%Qc) (Some false)
                          world0
             = inr (PyList recs, world0))
    by (eexists; vm_compute; reflexivity).
  destruct Hrun as (recs & H); unfold approx_exact in H.
  assert (Hdim : Forall (fun v : Qvec => length v = 2) unit_square)
    by (repeat constructor).
  assert (Hrows : Forall (fun row : Qvec => length row = 2) shear)
    by (repeat constructor).
  assert (Hexp : expm_exact (zeros 0%Qc 2) = inr (identity 0%Qc 1%Qc 2))
    by (vm_compute; reflexivity).
  pose proof H as Hrun.
  apply zero_step_identity with (n := 2) in H as (vs & _ & H0 & H1);
    [ exists recs, vs; split; [exact Hrun | split; assumption]
    | exact Qcmult_0_l | exact Qcmult_1_l
    | exact Qcplus_0_l | exact Qcplus_0_r
    | reflexivity | exact Hrows | exact Hexp | exact Hdim ].
Defined.

(** Witness of X2: the unit square under the shear flow: four propagated
    points of two coordinates. *)
Lemma propagation_shape_witness :
  exists recs (matrix_exp : Qmatrix) (flowpipe : list Qvec),
    approx_exact unit_square shear [] None (Some false) world0
    = inr (PyList recs, world0) /\
    length flowpipe = 4 /\
    Forall (fun v : Qvec => length v = ncols matrix_exp) unit_square /\
    Forall (fun p : Qvec => length p = length matrix_exp) flowpipe.
Proof.
  destruct run_square as (recs & H); unfold approx_exact in H.
  pose proof H as Hrun.
  apply propagation_shape in H as (M & fp & _ & _ & Hlen & Hin & Hout).
  exists recs, M, fp; repeat split; assumption.
Defined.

(** Witness of X3: the bloated unit square: the vertices of the enclosure are
    initial points or sums. *)
Lemma vertex_provenance_witness :
  exists recs flowpipe v2,
    approx_exact unit_square shear triangle None (Some false) world0
    = inr (PyList recs, world0) /\
    nth_error recs 2
    = Some (Polytope
              "Omega_1: convHull(mink_sum(mat_exp(flow) * I, bloat), I)" v2) /\
    forall s, In s v2 ->
              In s unit_square
              \/ (exists p b, In p flowpipe /\ In b triangle /\
                              np_add Qcplus p b = inr s).
Proof.
  destruct run_square_bloated as (recs & H); unfold approx_exact in H.
  pose proof H as Hrun.
  apply vertex_provenance in H
    as (M & fp & v1 & v2 & _ & _ & _ & H2 & _ & Hencl);
    [| exact ConvexHull_exact_points].
  exists recs, fp, v2.
  split; [exact Hrun |].
  split; [exact H2 |].
  intros s Hs; destruct (Hencl s Hs) as [Hi | [[Hb _] | Hsum]];
    [left; exact Hi | discriminate Hb | right; exact Hsum].
Defined.

(** Witness of X4: a bloating point of space against the points of the plane.
    *)
Lemma bloating_mismatch_raises_witness :
  (exists flowpipe,
      bloated Qcplus flowpipe [[Q2Qc 1; Q2Qc 2; Q2Qc 3]] = inl ValueError) /\
  forall plot w,
    approx_exact unit_square shear [[Q2Qc 1; Q2Qc 2; Q2Qc 3]] None plot w
    = inl ValueError.
Proof.
  assert (Hrun :
    exists fp,
      mapM (fun v => matmul 0%Qc Qcplus Qcmult
                            (mat_add (identity 0%Qc 1%Qc 2) shear) v)
           unit_square = inr fp /\
      length fp = 4 /\ Forall (fun p : Qvec => length p = 2) fp).
  { eexists; split; [vm_compute; reflexivity |].
    split; [reflexivity | repeat constructor]. }
  destruct Hrun as (fp & Hfp & Hlen & Hdim).
  destruct fp as [| p fp]; [discriminate Hlen |].
  destruct (@bloating_mismatch_raises
              Qc 0%Qc 1%Qc tenth_exact Qcplus Qcminus Qcmult
              expm_exact ConvexHull_exact nat randint_exact str_exact
              unit_square shear [[Q2Qc 1; Q2Qc 2; Q2Qc 3]] None
              (mat_add (identity 0%Qc 1%Qc 2) shear) (p :: fp))
    as [Hs Hall].
  - vm_compute; reflexivity.
  - exact Hfp.
  - exists p, [Q2Qc 1; Q2Qc 2; Q2Qc 3].
    split; [left; reflexivity |].
    split; [left; reflexivity |].
    inversion Hdim as [| p' fp' Hp _]; subst.
    rewrite Hp; repeat split; discriminate.
  - split; [exists (p :: fp); exact Hs | exact Hall].
Defined.


(** Witness of X6: three points of a line: the refusal of the hull is raised
    whatever the flag. *)
Lemma approx_error_any_flag_witness :
  approx_exact on_a_line shear [] None (Some false) world0
  = inl QhullError /\
  forall plot w, approx_exact on_a_line shear [] None plot w = inl QhullError.
Proof.
  assert (H : approx_exact on_a_line shear [] None (Some false) world0
              = inl QhullError) by (vm_compute; reflexivity).
  split; [exact H |].
  intros plot w; unfold approx_exact in *.
  eapply approx_error_any_flag; exact H.
Defined.

(** Witness of X7: two records rendered: one figure, two labels, two paths. *)
Lemma plot_polytopes_figure_witness :
  exists w' trace shp zerolines,
    plot_polytopes_exact two_records world0 = inr (PyNone, w') /\
    plotted w' = [Figure [trace] (Layout shp zerolines zerolines)] /\
    sc_text trace = ["square"%string; "triangle"%string] /\
    length shp = 2 /\
    Forall (fun s => sh_path s <> None) shp.
Proof.
  assert (Hrun : exists r w',
             plot_polytopes_exact two_records world0 = inr (r, w'))
    by (do 2 eexists; vm_compute; reflexivity).
  destruct Hrun as (r & w' & H); unfold plot_polytopes_exact in H.
  pose proof H as Hrun.
  apply plot_polytopes_figure in H
    as (-> & trace & shp & z & Hfig & _ & Htext & _ & _ & HF).
  exists w', trace, shp, z.
  split; [exact Hrun |].
  split; [exact Hfig |].
  split; [exact Htext |].
  split; [symmetry; exact (Forall2_length HF) |].
  clear - HF; induction HF as [| p s ps ss (_ & _ & Hs) _ IH];
    constructor; assumption.
Defined.

(** Witness of X8: two records of the plane: the labels sit a tenth below the
    first vertices. *)
Lemma plot_polytopes_planar_witness :
  exists w' trace lay,
    plot_polytopes_exact two_records world0 = inr (PyNone, w') /\
    plotted w' = [Figure [trace] lay] /\
    sc_y trace = [(0 - tenth_exact)%Qc; (0 - tenth_exact)%Qc].
Proof.
  destruct (@plot_polytopes_planar
              Qc 0%Qc tenth_exact Qcminus nat randint_exact str_exact
              two_records world0)
    as (w' & trace & lay & Hrun & Hfig & _ & Hy).
  - intros p [<- | [<- | []]]; (split; [discriminate |]);
      intros v Hv; cbn in Hv;
      repeat (destruct Hv as [<- | Hv]; [reflexivity |]); contradiction.
  - exists w', trace, lay.
    split; [exact Hrun |].
    split; [exact Hfig | exact Hy].
Defined.


(** Witness of X10: a record of space after two of the plane. *)
Lemma plot_polytopes_not_planar_witness :
  plot_polytopes_exact (two_records ++ [solid]) world0 = inl ValueError.
Proof.
  unfold plot_polytopes_exact.
  eapply plot_polytopes_not_planar with (post := []).
  - intros p [<- | [<- | []]]; eexists; vm_compute; reflexivity.
  - reflexivity.
  - intros v [<- | []]; reflexivity.
  - discriminate.
  - discriminate.
Defined.

(** Witness of X11: the bloated unit square, rendered: four labels, four
    shapes. *)
Lemma approx_plots_its_records_witness :
  exists w' trace shp zerolines,
    approx_exact unit_square shear triangle None None world0
    = inr (PyNone, w') /\
    plotted w' = [Figure [trace] (Layout shp zerolines zerolines)] /\
    length (sc_text trace) = 4 /\
    length shp = 4.
Proof.
  assert (Hrun : exists w',
             approx_exact unit_square shear triangle None None world0
             = inr (PyNone, w'))
    by (eexists; vm_compute; reflexivity).
  destruct Hrun as (w' & H); unfold approx_exact in H.
  pose proof H as Hrun.
  apply approx_plots_its_records in H
    as (recs & trace & shp & z & Hdata & Hfig & Htext & HF).
  destruct run_square_bloated as (recs' & Hdata').
  unfold approx_exact in Hdata'; rewrite Hdata' in Hdata.
  assert (Hlen : length recs = 4).
  { inversion Hdata; subst recs'.
    apply f_equal with (f := fun r => match r with
                                      | inr (PyList l, _) => length l
                                      | _ => 0
                                      end) in Hdata'.
    vm_compute in Hdata'; symmetry; exact Hdata'. }
  exists w', trace, shp, z.
  split; [exact Hrun |].
  split; [exact Hfig |].
  split; [rewrite Htext, length_map; exact Hlen |].
  rewrite <- (Forall2_length HF); exact Hlen.
Defined.

(** Witness of X12: the bloated unit square is a planar problem: it renders. *)
Lemma planar_call_renders_witness :
  exists recs w' fig,
    approx_exact unit_square shear triangle None (Some false) world0
    = inr (PyList recs, world0) /\
    approx_exact unit_square shear triangle None None world0
    = inr (PyNone, w') /\
    plotted w' = [fig] /\
    length (shapes (fig_layout fig)) = length recs.
Proof.
  destruct run_square_bloated as (recs & H); unfold approx_exact in H.
  pose proof H as Hrun.
  eapply planar_call_renders in H as (w' & fig & Hplot & Hfig & Hlen).
  - exists recs, w', fig; repeat split; eassumption.
  - exact ConvexHull_exact_points.
  - exact ConvexHull_exact_vertices.
  - vm_compute; reflexivity.
  - reflexivity.
  - repeat constructor.
  - repeat constructor.
Defined.
